(** * An expiring key-value store over Web Storage: model and properties

    Shallow embedding of [lib/storage.service.ts] (class [StorageService]).

    - JavaScript numbers are modelled by [Z]: every number the service handles
      is a millisecond count or an epoch timestamp.
    - The browser's [window] is a finite map from property names to storage
      media; a service holds the *name* of the medium it is bound to, so two
      services bound to the same medium share its entries.
    - Methods run in a small state-and-exception monad over the pair of the
      service object and the world (clock and [window]); the clock stands
      still during a call and moves between calls.
    - The two subjects are the lists of what was emitted on them; the
      observer of [actions] either consumes an action or raises.
    - The duration parser [./ms], the [JSON] codec and the error constants of
      [./storage.errors] are collaborators that are not part of the file; they
      are the fields of the class [Externals]. *)

From Stdlib Require Import ZArith NArith Lia Ascii String.
From Stdlib Require Import DecimalString DecimalPos DecimalN DecimalZ.
From stdpp Require Import base option list strings gmap.

Local Open Scope Z_scope.

(** ** JavaScript values *)

(** The values that survive [JSON.stringify]: the JSON data model. *)
#[local] Unset Elimination Schemes.
Inductive json : Type :=
  | JNull
  | JBool (b : bool)
  | JNum (n : Z)
  | JStr (s : string)
  | JArr (elems : list json)
  | JObj (fields : list (string * json)).
#[local] Set Elimination Schemes.

(** TypeScript's [any], as far as the service sees it: [undefined] or a JSON
    value. *)
Definition any : Type := option json.
Definition undefined : any := None.
Definition null : any := Some JNull.

(** Decimal rendering of a number, as [String(n)] does for an integer. *)
Definition string_of_Z (n : Z) : string := NilZero.string_of_int (Z.to_int n).

Definition join (sep : string) (l : list string) : string :=
  match l with
  | [] => ""
  | x :: xs => fold_left (fun acc y => acc +:+ sep +:+ y) xs x
  end.

(** [String(v)] of JavaScript. *)
Fixpoint String_json (j : json) : string :=
  match j with
  | JNull => "null"
  | JBool true => "true"
  | JBool false => "false"
  | JNum n => string_of_Z n
  | JStr s => s
  | JArr elems =>
      join "," (map (fun e => match e with JNull => "" | _ => String_json e end) elems)
  | JObj _ => "[object Object]"
  end.

Definition String_any (v : any) : string :=
  match v with
  | None => "undefined"
  | Some j => String_json j
  end.

(** [obj[name]] for a property name that is neither an index nor built in. *)
Fixpoint assoc (name : string) (fields : list (string * json)) : any :=
  match fields with
  | [] => undefined
  | (k, v) :: rest => if decide (k = name) then Some v else assoc name rest
  end.

Definition prop (obj : json) (name : string) : any :=
  match obj with
  | JObj fields => assoc name fields
  | _ => undefined
  end.

(** A [json] term denotes a JavaScript value when no object repeats a key. *)
Fixpoint json_wf (j : json) : bool :=
  match j with
  | JArr elems => forallb json_wf elems
  | JObj fields =>
      bool_decide (NoDup (map fst fields)) && forallb (fun kv => json_wf (snd kv)) fields
  | _ => true
  end.

Definition any_wf (v : any) : bool :=
  match v with
  | None => true
  | Some j => json_wf j
  end.

(** A string is truthy when it is present and not empty. *)
Definition truthy (s : option string) : bool :=
  match s with
  | Some s => negb (bool_decide (s = ""))
  | None => false
  end.

(** ** Errors, actions and configuration *)

Record AngularWebStoreError : Type := {
  code : Z;
  message : string
}.

Inductive ActionType : Type := Set_TYPE | Get_TYPE | Remove_TYPE | Clear_TYPE.

Inductive Actions : Type :=
  | SetAction (key : string) (value : any) (expiredIn : option string)
  | GetAction (key : string)
  | RemoveAction (key : string)
  | ClearAction.

Record ActionNotifyOptions : Type := {
  notify_Set : bool;
  notify_Get : bool;
  notify_Remove : bool;
  notify_Clear : bool
}.

Definition no_notify : ActionNotifyOptions :=
  {| notify_Set := false; notify_Get := false;
     notify_Remove := false; notify_Clear := false |}.

(** [actionNotify[action]] *)
Definition enabled (o : ActionNotifyOptions) (action : ActionType) : bool :=
  match action with
  | Set_TYPE => notify_Set o
  | Get_TYPE => notify_Get o
  | Remove_TYPE => notify_Remove o
  | Clear_TYPE => notify_Clear o
  end.

Record AngularWebStoreConfig : Type := {
  cfg_prefix : option string;
  cfg_expiredIn : option string;
  cfg_keepAlive : option bool;
  cfg_actionNotify : option ActionNotifyOptions
}.

(** ** The world: clock and storage media *)

(** A storage medium either works, holding its items, or raises on every
    access. *)
Inductive Medium : Type :=
  | Working (items : gmap string string)
  | Broken (msg : string).

Record World : Type := {
  now : Z;
  window : gmap string Medium
}.

Definition with_window (f : gmap string Medium → gmap string Medium) (w : World) : World :=
  {| now := now w; window := f (window w) |}.

Definition with_now (t : Z) (w : World) : World :=
  {| now := t; window := window w |}.

(** ** The service object *)

Record StorageService : Type := {
  storage : option string;
  prefix : string;
  expiredMs : Z;
  keepAlive : bool;
  actionNotify : ActionNotifyOptions;
  errors : list AngularWebStoreError;
  actions : list Actions;
  actions_observer : Actions → option string
}.

Definition with_storage (h : option string) (s : StorageService) : StorageService :=
  {| storage := h; prefix := prefix s; expiredMs := expiredMs s;
     keepAlive := keepAlive s; actionNotify := actionNotify s;
     errors := errors s; actions := actions s;
     actions_observer := actions_observer s |}.

Definition with_prefix (p : string) (s : StorageService) : StorageService :=
  {| storage := storage s; prefix := p; expiredMs := expiredMs s;
     keepAlive := keepAlive s; actionNotify := actionNotify s;
     errors := errors s; actions := actions s;
     actions_observer := actions_observer s |}.

Definition with_expiredMs (d : Z) (s : StorageService) : StorageService :=
  {| storage := storage s; prefix := prefix s; expiredMs := d;
     keepAlive := keepAlive s; actionNotify := actionNotify s;
     errors := errors s; actions := actions s;
     actions_observer := actions_observer s |}.

Definition with_actionNotify (n : ActionNotifyOptions) (s : StorageService) : StorageService :=
  {| storage := storage s; prefix := prefix s; expiredMs := expiredMs s;
     keepAlive := keepAlive s; actionNotify := n;
     errors := errors s; actions := actions s;
     actions_observer := actions_observer s |}.

Definition with_keepAlive (k : bool) (s : StorageService) : StorageService :=
  {| storage := storage s; prefix := prefix s; expiredMs := expiredMs s;
     keepAlive := k; actionNotify := actionNotify s;
     errors := errors s; actions := actions s;
     actions_observer := actions_observer s |}.

Definition with_errors (l : list AngularWebStoreError) (s : StorageService) : StorageService :=
  {| storage := storage s; prefix := prefix s; expiredMs := expiredMs s;
     keepAlive := keepAlive s; actionNotify := actionNotify s;
     errors := l; actions := actions s;
     actions_observer := actions_observer s |}.

Definition with_actions (l : list Actions) (s : StorageService) : StorageService :=
  {| storage := storage s; prefix := prefix s; expiredMs := expiredMs s;
     keepAlive := keepAlive s; actionNotify := actionNotify s;
     errors := errors s; actions := l;
     actions_observer := actions_observer s |}.

(** [actions.subscribe(f)]: one observer, which consumes an action or raises
    with a message. *)
Definition subscribe (f : Actions → option string) (s : StorageService) : StorageService :=
  {| storage := storage s; prefix := prefix s; expiredMs := expiredMs s;
     keepAlive := keepAlive s; actionNotify := actionNotify s;
     errors := errors s; actions := actions s;
     actions_observer := f |}.

(** ** Exceptions and the method monad *)

Inductive Exn : Type :=
  | TypeError (msg : string)
  | SyntaxError (msg : string)
  | DurationError (input : string)
  | StorageFault (msg : string)
  | ObserverFault (msg : string).

Definition exn_message (e : Exn) : string :=
  match e with
  | TypeError m | SyntaxError m | DurationError m | StorageFault m | ObserverFault m => m
  end.

Definition State : Type := StorageService * World.

Inductive Outcome (A : Type) : Type :=
  | Returned (a : A) (st : State)
  | Thrown (e : Exn) (st : State).
Arguments Returned {A} a st.
Arguments Thrown {A} e st.

Definition M (A : Type) : Type := State → Outcome A.

Definition ret {A} (a : A) : M A := fun st => Returned a st.

Definition bind {A B} (m : M A) (k : A → M B) : M B :=
  fun st =>
    match m st with
    | Returned a st' => k a st'
    | Thrown e st' => Thrown e st'
    end.

Definition throw {A} (e : Exn) : M A := fun st => Thrown e st.

(** [try { m } catch (e) { h e }] *)
Definition try_catch {A} (m : M A) (h : Exn → M A) : M A :=
  fun st =>
    match m st with
    | Returned a st' => Returned a st'
    | Thrown e st' => h e st'
    end.

Declare Scope method_scope.
Delimit Scope method_scope with method.
Notation "x <- m ;; k" := (bind m (fun x => k))
  (at level 100, m at next level, right associativity) : method_scope.
Notation "m ;;; k" := (bind m (fun _ => k))
  (at level 100, right associativity) : method_scope.
Local Open Scope method_scope.

Definition this : M StorageService := fun st => Returned (fst st) st.
Definition world : M World := fun st => Returned (snd st) st.
Definition update_this (f : StorageService → StorageService) : M unit :=
  fun st => Returned tt (f (fst st), snd st).
Definition update_world (f : World → World) : M unit :=
  fun st => Returned tt (fst st, f (snd st)).

(** [+new Date()] *)
Definition Date_now : M Z := w <- world ;; ret (now w).

(** [errors.next(e)] *)
Definition errors_next (e : AngularWebStoreError) : M unit :=
  update_this (fun s => with_errors (errors s ++ [e]) s).

(** [actions.next(a)]: the action is delivered; a raising observer raises
    into the emitter. *)
Definition actions_next (a : Actions) : M unit :=
  update_this (fun s => with_actions (actions s ++ [a]) s) ;;;
  s <- this ;;
  match actions_observer s a with
  | Some msg => throw (ObserverFault msg)
  | None => ret tt
  end.

(** *** Calls on a storage medium *)

Definition medium_setItem (name key value : string) : M unit :=
  w <- world ;;
  match window w !! name with
  | Some (Working items) =>
      update_world (with_window (insert name (Working (<[key := value]> items))))
  | Some (Broken msg) => throw (StorageFault msg)
  | None => throw (TypeError "Cannot read property 'setItem' of undefined")
  end.

Definition medium_getItem (name key : string) : M (option string) :=
  w <- world ;;
  match window w !! name with
  | Some (Working items) => ret (items !! key)
  | Some (Broken msg) => throw (StorageFault msg)
  | None => throw (TypeError "Cannot read property 'getItem' of undefined")
  end.

Definition medium_removeItem (name key : string) : M unit :=
  w <- world ;;
  match window w !! name with
  | Some (Working items) =>
      update_world (with_window (insert name (Working (delete key items))))
  | Some (Broken msg) => throw (StorageFault msg)
  | None => throw (TypeError "Cannot read property 'removeItem' of undefined")
  end.

Definition medium_clear (name : string) : M unit :=
  w <- world ;;
  match window w !! name with
  | Some (Working items) => update_world (with_window (insert name (Working ∅)))
  | Some (Broken msg) => throw (StorageFault msg)
  | None => throw (TypeError "Cannot read property 'clear' of undefined")
  end.

(** [this.storage.setItem(..)] and its siblings: the field is dereferenced
    as it is, so an unset field raises a [TypeError]. *)
Definition storage_setItem (key value : string) : M unit :=
  s <- this ;;
  match storage s with
  | None => throw (TypeError "Cannot read property 'setItem' of undefined")
  | Some name => medium_setItem name key value
  end.

Definition storage_getItem (key : string) : M (option string) :=
  s <- this ;;
  match storage s with
  | None => throw (TypeError "Cannot read property 'getItem' of undefined")
  | Some name => medium_getItem name key
  end.

Definition storage_removeItem (key : string) : M unit :=
  s <- this ;;
  match storage s with
  | None => throw (TypeError "Cannot read property 'removeItem' of undefined")
  | Some name => medium_removeItem name key
  end.

Definition storage_clear : M unit :=
  s <- this ;;
  match storage s with
  | None => throw (TypeError "Cannot read property 'clear' of undefined")
  | Some name => medium_clear name
  end.

(** ** Collaborators outside the file *)

Class Externals : Type := {
  (** [./ms]: the duration parser; [None] when it raises. *)
  ms : string → option Z;
  (** [JSON.stringify] and [JSON.parse]; [None] is a [SyntaxError]. *)
  JSON_stringify : json → string;
  JSON_parse : string → option json;
  (** [./storage.errors] *)
  SESSION_STORAGE_NOT_SUPPORTED : AngularWebStoreError;
  LOCAL_STORAGE_NOT_SUPPORTED : AngularWebStoreError;
  UNKNOWN_STORAGE_TYPE : AngularWebStoreError
}.

Definition EXPIRED_AT : string := "@@EXPIRED_AT".
Definition STOREAGE_VALUE : string := "@@STORAGE_VALUE".
Definition EXPIRED_MS : string := "@@EXPIRED_MS".

Definition LOCAL : string := "localStorage".
Definition SESSION : string := "sessionStorage".

(** ** The methods of [StorageService] *)

Section Service.
Context {E : Externals}.

(** [notifyAction]: gated by the mask; a fault of the emission is caught and
    sent to [errors]. *)
Definition notifyAction (action : ActionType) (actionArgs : Actions) : M unit :=
  s <- this ;;
  if enabled (actionNotify s) action then
    try_catch (actions_next actionArgs)
      (fun e => errors_next {| code := 500; message := exn_message e |})
  else ret tt.

Definition call_ms (input : string) : M Z :=
  match ms input with
  | Some n => ret n
  | None => throw (DurationError input)
  end.

(** [expiredIn ? ms(expiredIn) : this.expiredMs] *)
Definition computeExpiredMs (expiredIn : option string) : M Z :=
  if truthy expiredIn then call_ms (default "" expiredIn)
  else s <- this ;; ret (expiredMs s).

Definition computeKey (originalKey : string) : M string :=
  s <- this ;; ret (prefix s +:+ "__" +:+ originalKey).

(** [typeof obj === 'object' && obj !== null && typeof obj[EXPIRED_AT] ===
    'number']: objects and arrays have type ['object']; an array has no such
    property. *)
Definition isValidValue (obj : json) : bool :=
  match obj with
  | JObj _ | JArr _ =>
      match prop obj EXPIRED_AT with
      | Some (JNum _) => true
      | _ => false
      end
  | _ => false
  end.

(** [mills === -1 || mills >= +new Date()] *)
Definition unExpired (mills : Z) : M bool :=
  t <- Date_now ;; ret (bool_decide (mills = -1) || bool_decide (mills >= t)).

(** The object literal that [set] serialises; a property whose value is
    [undefined] is left out by [JSON.stringify]. *)
Definition envelope (expiredMs expiredAt : Z) (value : any) : json :=
  JObj ([(EXPIRED_MS, JNum expiredMs); (EXPIRED_AT, JNum expiredAt)]
        ++ match value with
           | Some v => [(STOREAGE_VALUE, v)]
           | None => []
           end).

(** [set]: the notification, then the duration, then the write. Neither the
    parser's failure nor a fault of [setItem] is caught. *)
Definition set (key : string) (value : any) (expiredIn : option string) : M unit :=
  notifyAction Set_TYPE (SetAction key value expiredIn) ;;;
  expiredMs <- computeExpiredMs expiredIn ;;
  k <- computeKey key ;;
  t <- Date_now ;;
  storage_setItem k
    (JSON_stringify
       (envelope expiredMs (if bool_decide (expiredMs = -1) then -1 else t + expiredMs) value)).

Definition call_JSON_parse (text : string) : M json :=
  match JSON_parse text with
  | Some j => ret j
  | None => throw (SyntaxError "Unexpected token in JSON")
  end.

(** [x || 'null'] on the result of [getItem] *)
Definition or_null (raw : option string) : string :=
  if truthy raw then default "null" raw else "null".

(** [get]: everything after the notification runs inside [try], and the
    handler returns [null]. *)
Definition get (key : string) : M any :=
  notifyAction Get_TYPE (GetAction key) ;;;
  try_catch
    (k <- computeKey key ;;
     raw <- storage_getItem k ;;
     obj <- call_JSON_parse (or_null raw) ;;
     if isValidValue obj then
       match prop obj EXPIRED_AT with
       | Some (JNum expiredAt) =>
           live <- unExpired expiredAt ;;
           if live then
             let value := prop obj STOREAGE_VALUE in
             s <- this ;;
             (if negb (bool_decide (expiredAt = -1)) && keepAlive s
              then set key value (Some (String_any (prop obj EXPIRED_MS) +:+ "ms"))
              else ret tt) ;;;
             ret value
           else
             k <- computeKey key ;;
             storage_removeItem k ;;;
             ret null
       | _ => ret null
       end
     else ret null)
    (fun _ => ret null).

Definition remove (key : string) : M unit :=
  notifyAction Remove_TYPE (RemoveAction key) ;;;
  k <- computeKey key ;;
  storage_removeItem k.

Definition clear : M unit :=
  notifyAction Clear_TYPE ClearAction ;;;
  storage_clear.

(** *** Construction *)

(** [initConfig]: [||] and [?:] replace a missing or empty field by its
    default; the parser's failure is not caught. *)
Definition initConfig (config : AngularWebStoreConfig) : M unit :=
  update_this
    (with_prefix (if truthy (cfg_prefix config)
                  then default "MIZNE" (cfg_prefix config) else "MIZNE")) ;;;
  d <- (if truthy (cfg_expiredIn config)
        then call_ms (default "" (cfg_expiredIn config))
        else ret (-1)) ;;
  update_this (with_expiredMs d) ;;;
  update_this (with_actionNotify (default no_notify (cfg_actionNotify config))) ;;;
  update_this (with_keepAlive (default false (cfg_keepAlive config))).

(** [checkSupport]: [storageType in window && window[storageType] !== null],
    then a sentinel key is written and removed; a fault is caught, reported
    with code 500, and the answer is [false]. *)
Definition checkSupport (storageType : string) : M bool :=
  try_catch
    (w <- world ;;
     match window w !! storageType with
     | Some _ =>
         s <- this ;;
         let key := prefix s +:+ "_CHECK_SUPPORT" in
         medium_setItem storageType key "" ;;;
         medium_removeItem storageType key ;;;
         ret true
     | None => ret false
     end)
    (fun e =>
       errors_next {| code := 500; message := exn_message e |} ;;;
       ret false).

(** [initStorage]: the [switch] on the storage kind. *)
Definition initStorage (storageType : string) : M unit :=
  if decide (storageType = LOCAL) then
    ok <- checkSupport storageType ;;
    if ok then update_this (with_storage (Some storageType))
    else errors_next LOCAL_STORAGE_NOT_SUPPORTED
  else if decide (storageType = SESSION) then
    ok <- checkSupport storageType ;;
    if ok then update_this (with_storage (Some storageType))
    else errors_next SESSION_STORAGE_NOT_SUPPORTED
  else errors_next UNKNOWN_STORAGE_TYPE.

(** The object before the constructor body runs: fields unset, two fresh
    subjects without observers. *)
Definition blank : StorageService :=
  {| storage := None; prefix := ""; expiredMs := 0; keepAlive := false;
     actionNotify := no_notify; errors := []; actions := [];
     actions_observer := fun _ => None |}.

Definition constructor (storageType : string) (config : AngularWebStoreConfig) : M unit :=
  initConfig config ;;;
  initStorage storageType.

(** [new StorageService(storageType, config)] in world [w]. *)
Definition new (storageType : string) (config : AngularWebStoreConfig) (w : World)
    : Outcome unit :=
  constructor storageType config (blank, w).

(** The two injectable subclasses fix the storage kind. *)
Definition LocalStorageService (config : AngularWebStoreConfig) (w : World)
    : Outcome unit :=
  new LOCAL config w.

Definition SessionStorageService (config : AngularWebStoreConfig) (w : World)
    : Outcome unit :=
  new SESSION config w.
End Service.

(** ** Contracts of the collaborators *)

(** The duration parser yields a magnitude, never a negative number, and reads
    back a millisecond count rendered by [String]. *)
Class MsContract (E : Externals) : Prop := {
  ms_nonneg : ∀ s n, ms s = Some n → 0 ≤ n;
  ms_millis : ∀ n, 0 ≤ n → ms (string_of_Z n +:+ "ms") = Some n
}.

(** [JSON.parse] inverts [JSON.stringify] on JSON values, and the text of a
    value is never empty. *)
Class JsonContract (E : Externals) : Prop := {
  parse_stringify : ∀ j, json_wf j = true → JSON_parse (JSON_stringify j) = Some j;
  stringify_nonempty : ∀ j, JSON_stringify j ≠ EmptyString
}.

(** ** Observations used to state properties *)

(** The service after [notifyAction action a]: the action is emitted when its
    kind is enabled, and a fault of the observer becomes a code-500 error. *)
Definition notified (action : ActionType) (a : Actions) (s : StorageService)
    : StorageService :=
  if enabled (actionNotify s) action then
    let s' := with_actions (actions s ++ [a]) s in
    match actions_observer s a with
    | Some msg => with_errors (errors s ++ [{| code := 500; message := msg |}]) s'
    | None => s'
    end
  else s.

(** The internal key that [computeKey] builds. *)
Definition internal_key (s : StorageService) (key : string) : string :=
  prefix s +:+ "__" +:+ key.

(** The value of [expiredAt] that [set] writes at time [t] for duration [d]. *)
Definition expiry (t d : Z) : Z := if bool_decide (d = -1) then -1 else t + d.

Definition working (name : string) (w : World) : bool :=
  match window w !! name with
  | Some (Working _) => true
  | _ => false
  end.

(** The raw text under a key of a working medium. *)
Definition item (name key : string) (w : World) : option string :=
  match window w !! name with
  | Some (Working items) => items !! key
  | _ => None
  end.

Definition put_item (name key text : string) (w : World) : World :=
  match window w !! name with
  | Some (Working items) => with_window (insert name (Working (<[key := text]> items))) w
  | _ => w
  end.

Definition drop_item (name key : string) (w : World) : World :=
  match window w !! name with
  | Some (Working items) => with_window (insert name (Working (delete key items))) w
  | _ => w
  end.

Definition wipe_items (name : string) (w : World) : World :=
  match window w !! name with
  | Some (Working items) => with_window (insert name (Working ∅)) w
  | _ => w
  end.

(** An entry is live at time [t] when its expiry is [-1] or not before [t]. *)
Definition live_at (t : Z) (obj : json) : bool :=
  match prop obj EXPIRED_AT with
  | Some (JNum expiredAt) => bool_decide (expiredAt = -1) || bool_decide (t ≤ expiredAt)
  | _ => false
  end.

(** Two service objects that differ at most in what they have emitted. *)
Definition same_config (s s' : StorageService) : Prop :=
  storage s' = storage s ∧ prefix s' = prefix s ∧ expiredMs s' = expiredMs s
  ∧ keepAlive s' = keepAlive s ∧ actionNotify s' = actionNotify s
  ∧ actions_observer s' = actions_observer s.

Section Scenarios.
Context {E : Externals}.

(** The duration that [computeExpiredMs] resolves, if the parser accepts. *)
Definition duration_of (s : StorageService) (expiredIn : option string) : option Z :=
  if truthy expiredIn then ms (default EmptyString expiredIn) else Some (expiredMs s).

(** The default duration that [initConfig] resolves. *)
Definition config_duration (config : AngularWebStoreConfig) : option Z :=
  if truthy (cfg_expiredIn config) then ms (default EmptyString (cfg_expiredIn config))
  else Some (-1).

Definition not_supported (storageType : string) : AngularWebStoreError :=
  if decide (storageType = LOCAL) then LOCAL_STORAGE_NOT_SUPPORTED
  else SESSION_STORAGE_NOT_SUPPORTED.

End Scenarios.

(** ** Concrete collaborators

    A duration parser and a JSON codec to run the service on concrete inputs. *)

Definition is_digit (c : ascii) : bool :=
  let n := N_of_ascii c in (48 <=? n)%N && (n <=? 57)%N.

(** The longest prefix of decimal digits, and what follows it. *)
Fixpoint span_digits (s : string) : string * string :=
  match s with
  | String c r =>
      if is_digit c then
        let '(ds, rest) := span_digits r in (String c ds, rest)
      else (EmptyString, s)
  | EmptyString => (EmptyString, EmptyString)
  end.

(** [String(n)] for a natural number. *)
Definition string_of_N (n : N) : string := NilZero.string_of_uint (N.to_uint n).

(** A run of decimal digits read as a number, and the rest of the text. *)
Definition parse_digits (s : string) : option (N * string) :=
  let '(ds, rest) := span_digits s in
  match NilZero.uint_of_string ds with
  | Some d => Some (N.of_uint d, rest)
  | None => None
  end.

Definition unit_millis (unit : string) : option Z :=
  if decide (unit = "ms") then Some 1
  else if decide (unit = "s") then Some 1000
  else if decide (unit = "m") then Some 60000
  else if decide (unit = "h") then Some 3600000
  else if decide (unit = "d") then Some 86400000
  else if decide (unit = "y") then Some 31557600000
  else None.

(** Modelled from the spec: the duration parser [./ms], which is not part of
    the source file. It accepts a magnitude followed by a unit suffix
    (["3ms"], ["4s"], ["5m"], ["6h"], ["7d"], ["8y"]), yields milliseconds and
    fails on any other text. *)
Definition ms_spec (s : string) : option Z :=
  match parse_digits s with
  | Some (n, unit) =>
      match unit_millis unit with
      | Some f => Some (Z.of_N n * f)
      | None => None
      end
  | None => None
  end.

(** *** JSON text *)

Definition dquote : ascii := "034"%char.
Definition backslash : ascii := "092"%char.

Definition hex_digit (n : N) : ascii :=
  ascii_of_N (if (n <? 10)%N then 48 + n else 87 + n)%N.

Definition hex_value (c : ascii) : option N :=
  let n := N_of_ascii c in
  if (48 <=? n)%N && (n <=? 57)%N then Some (n - 48)%N
  else if (97 <=? n)%N && (n <=? 102)%N then Some (n - 87)%N
  else if (65 <=? n)%N && (n <=? 70)%N then Some (n - 55)%N
  else None.

(** One character inside a string literal, followed by [k]. *)
Definition write_char (c : ascii) (k : string) : string :=
  let n := N_of_ascii c in
  if Ascii.eqb c dquote then String backslash (String dquote k)
  else if Ascii.eqb c backslash then String backslash (String backslash k)
  else if (n =? 8)%N then String backslash (String "b" k)
  else if (n =? 9)%N then String backslash (String "t" k)
  else if (n =? 10)%N then String backslash (String "n" k)
  else if (n =? 12)%N then String backslash (String "f" k)
  else if (n =? 13)%N then String backslash (String "r" k)
  else if (n <? 32)%N then
    String backslash (String "u" (String "0" (String "0"
      (String (hex_digit (n / 16)) (String (hex_digit (n mod 16)) k)))))
  else String c k.

(** A string literal: the characters of [s] between two quotes, then [k]. *)
Fixpoint write_chars (s : string) (k : string) : string :=
  match s with
  | EmptyString => String dquote k
  | String c r => write_char c (write_chars r k)
  end.

Definition write_string (s : string) (k : string) : string :=
  String dquote (write_chars s k).

Section Tail.
Context {A : Type} (w : A → string → string) (close : ascii).

(** The elements after the first one, each behind a comma, the closing
    bracket, then [k]. *)
Fixpoint write_tail (l : list A) (k : string) : string :=
  match l with
  | [] => String close k
  | y :: ys => String "," (w y (write_tail ys k))
  end.
End Tail.

(** The compact text of a value, followed by [k]. *)
Fixpoint write (j : json) (k : string) : string :=
  match j with
  | JNull => "null" +:+ k
  | JBool true => "true" +:+ k
  | JBool false => "false" +:+ k
  | JNum n => string_of_Z n +:+ k
  | JStr s => write_string s k
  | JArr [] => "[]" +:+ k
  | JArr (x :: xs) => String "[" (write x (write_tail write "]" xs k))
  | JObj [] => "{}" +:+ k
  | JObj (f :: fs) =>
      let member (kv : string * json) (k' : string) : string :=
        write_string (fst kv) (String ":" (write (snd kv) k')) in
      String "{" (member f (write_tail member "}" fs k))
  end.

Definition stringify (j : json) : string := write j EmptyString.

(** The single-character escapes. *)
Definition unescape (e : ascii) : option ascii :=
  if Ascii.eqb e dquote then Some dquote
  else if Ascii.eqb e backslash then Some backslash
  else if Ascii.eqb e "/" then Some "/"%char
  else if Ascii.eqb e "b" then Some "008"%char
  else if Ascii.eqb e "t" then Some "009"%char
  else if Ascii.eqb e "n" then Some "010"%char
  else if Ascii.eqb e "f" then Some "012"%char
  else if Ascii.eqb e "r" then Some "013"%char
  else None.

(** Four hexadecimal digits naming a character below 256. *)
Definition unhex4 (h1 h2 h3 h4 : ascii) : option ascii :=
  match hex_value h1, hex_value h2, hex_value h3, hex_value h4 with
  | Some 0%N, Some 0%N, Some a, Some b => Some (ascii_of_N (16 * a + b))
  | _, _, _, _ => None
  end.

Definition push (c : ascii) (r : option (string * string)) : option (string * string) :=
  match r with
  | Some (s, rest) => Some (String c s, rest)
  | None => None
  end.

(** The characters of a string literal after its opening quote, up to the
    closing quote, and the text after it. *)
Fixpoint parse_chars (s : string) : option (string * string) :=
  match s with
  | EmptyString => None
  | String c r =>
      if Ascii.eqb c dquote then Some (EmptyString, r)
      else if Ascii.eqb c backslash then
        match r with
        | String e r' =>
            match unescape e with
            | Some c' => push c' (parse_chars r')
            | None =>
                if Ascii.eqb e "u" then
                  match r' with
                  | String h1 (String h2 (String h3 (String h4 r''))) =>
                      match unhex4 h1 h2 h3 h4 with
                      | Some c' => push c' (parse_chars r'')
                      | None => None
                      end
                  | _ => None
                  end
                else None
            end
        | EmptyString => None
        end
      else if (N_of_ascii c <? 32)%N then None
      else push c (parse_chars r)
  end.

Fixpoint strip_prefix (p s : string) : option string :=
  match p with
  | EmptyString => Some s
  | String a p' =>
      match s with
      | String b s' => if Ascii.eqb a b then strip_prefix p' s' else None
      | EmptyString => None
      end
  end.

(** A later member with the same key replaces an earlier one. *)
Definition add_member (key : string) (v : json) (fs : list (string * json))
    : list (string * json) :=
  if bool_decide (key ∈ map fst fs) then fs else (key, v) :: fs.

(** A number as [JSON] writes it: an optional minus sign and digits without
    leading zeros, so that rendering the number again gives back the text. *)
Definition parse_number (s : string) : option (json * string) :=
  match s with
  | String c r =>
      if Ascii.eqb c "-" then
        match parse_digits r with
        | Some (n, rest) =>
            if decide (string_of_N n +:+ rest = r)
            then Some (JNum (- Z.of_N n), rest) else None
        | None => None
        end
      else
        match parse_digits s with
        | Some (n, rest) =>
            if decide (string_of_N n +:+ rest = s)
            then Some (JNum (Z.of_N n), rest) else None
        | None => None
        end
  | EmptyString => None
  end.

(** Recursive descent, with [fuel] bounding the nesting and the number of
    elements. *)
Fixpoint parse_value (fuel : nat) (s : string) : option (json * string) :=
  match fuel with
  | O => None
  | S fuel =>
      match s with
      | EmptyString => None
      | String c r =>
          if Ascii.eqb c "n" then
            match strip_prefix "ull" r with Some r' => Some (JNull, r') | None => None end
          else if Ascii.eqb c "t" then
            match strip_prefix "rue" r with Some r' => Some (JBool true, r') | None => None end
          else if Ascii.eqb c "f" then
            match strip_prefix "alse" r with Some r' => Some (JBool false, r') | None => None end
          else if Ascii.eqb c dquote then
            match parse_chars r with Some (str, r') => Some (JStr str, r') | None => None end
          else if Ascii.eqb c "[" then
            match r with
            | String "]" r' => Some (JArr [], r')
            | _ =>
                match parse_value fuel r with
                | Some (x, r1) =>
                    match parse_elements fuel r1 with
                    | Some (xs, r2) => Some (JArr (x :: xs), r2)
                    | None => None
                    end
                | None => None
                end
            end
          else if Ascii.eqb c "{" then
            match r with
            | String "}" r' => Some (JObj [], r')
            | _ =>
                match parse_member fuel r with
                | Some (key, v, r1) =>
                    match parse_members fuel r1 with
                    | Some (fs, r2) => Some (JObj (add_member key v fs), r2)
                    | None => None
                    end
                | None => None
                end
            end
          else parse_number s
      end
  end
with parse_elements (fuel : nat) (s : string) : option (list json * string) :=
  match fuel with
  | O => None
  | S fuel =>
      match s with
      | String c r =>
          if Ascii.eqb c "]" then Some ([], r)
          else if Ascii.eqb c "," then
            match parse_value fuel r with
            | Some (x, r1) =>
                match parse_elements fuel r1 with
                | Some (xs, r2) => Some (x :: xs, r2)
                | None => None
                end
            | None => None
            end
          else None
      | EmptyString => None
      end
  end
with parse_member (fuel : nat) (s : string) : option (string * json * string) :=
  match fuel with
  | O => None
  | S fuel =>
      match s with
      | String c r =>
          if Ascii.eqb c dquote then
            match parse_chars r with
            | Some (key, String c' r1) =>
                if Ascii.eqb c' ":" then
                  match parse_value fuel r1 with
                  | Some (v, r2) => Some (key, v, r2)
                  | None => None
                  end
                else None
            | _ => None
            end
          else None
      | EmptyString => None
      end
  end
with parse_members (fuel : nat) (s : string) : option (list (string * json) * string) :=
  match fuel with
  | O => None
  | S fuel =>
      match s with
      | String c r =>
          if Ascii.eqb c "}" then Some ([], r)
          else if Ascii.eqb c "," then
            match parse_member fuel r with
            | Some (key, v, r1) =>
                match parse_members fuel r1 with
                | Some (fs, r2) => Some (add_member key v fs, r2)
                | None => None
                end
            | None => None
            end
          else None
      | EmptyString => None
      end
  end.

(** The whole text must be one value. *)
Definition parse (text : string) : option json :=
  match parse_value (S (String.length text)) text with
  | Some (j, EmptyString) => Some j
  | _ => None
  end.

Definition unsupported (what : string) : AngularWebStoreError :=
  {| code := 0; message := what |}.

Definition concrete : Externals := {|
  ms := ms_spec;
  JSON_stringify := stringify;
  JSON_parse := parse;
  SESSION_STORAGE_NOT_SUPPORTED := unsupported "sessionStorage not supported";
  LOCAL_STORAGE_NOT_SUPPORTED := unsupported "localStorage not supported";
  UNKNOWN_STORAGE_TYPE := unsupported "unknown storage type"
|}.

(** *** Fuel and shape of JSON text *)

Section NeedTail.
Context {A : Type} (nd : A → nat).

(** Fuel that [parse_elements] and [parse_members] need for a tail. *)
Fixpoint need_tail (l : list A) : nat :=
  match l with
  | [] => 1
  | y :: ys => S (Nat.max (nd y) (need_tail ys))
  end.
End NeedTail.

(** Fuel that [parse_value] needs to read back the text of a value. *)
Fixpoint need (j : json) : nat :=
  match j with
  | JArr (x :: xs) => S (Nat.max (need x) (need_tail need xs))
  | JObj (f :: fs) =>
      let member (kv : string * json) : nat := S (need (snd kv)) in
      S (Nat.max (member f) (need_tail member fs))
  | _ => 1%nat
  end.

Definition member_need (kv : string * json) : nat := S (need (snd kv)).

(** The text of one member of an object, as [write] prints it. *)
Definition member_text (kv : string * json) (k' : string) : string :=
  write_string (fst kv) (String ":" (write (snd kv) k')).

(** The text does not go on with a digit, so a number before it ends there. *)
Definition no_digit_head (s : string) : bool :=
  match s with
  | String c _ => negb (is_digit c)
  | EmptyString => true
  end.

(** The text starts like a number. *)
Definition number_head (s : string) : bool :=
  match s with
  | String c _ => Ascii.eqb c "-" || is_digit c
  | EmptyString => false
  end.

(** The text starts with something other than a closing bracket. *)
Definition opens_value (s : string) : bool :=
  match s with
  | String c _ => negb (Ascii.eqb c "]")
  | EmptyString => false
  end.

(** [parse_value] reads the text of [j] back, whatever follows it. *)
Definition round_trips (j : json) : Prop :=
  json_wf j = true →
  ∀ fuel k, (need j ≤ fuel)%nat → no_digit_head k = true →
    parse_value fuel (write j k) = Some (j, k).

(** The text of [j] is at least as long as the fuel it needs. *)
Definition fits (j : json) : Prop :=
  ∀ k, (need j + String.length k ≤ String.length (write j k))%nat.

(** Induction on a JSON value, with the hypothesis for every element of an
    array and every member of an object. *)
Fixpoint json_ind' (P : json → Prop)
    (HNull : P JNull) (HBool : ∀ b, P (JBool b)) (HNum : ∀ n, P (JNum n))
    (HStr : ∀ s, P (JStr s))
    (HArr : ∀ l, Forall P l → P (JArr l))
    (HObj : ∀ fs, Forall (fun kv => P (snd kv)) fs → P (JObj fs))
    (j : json) {struct j} : P j :=
  let rec := json_ind' P HNull HBool HNum HStr HArr HObj in
  match j with
  | JNull => HNull
  | JBool b => HBool b
  | JNum n => HNum n
  | JStr s => HStr s
  | JArr l =>
      HArr l
        ((fix go (l : list json) : Forall P l :=
            match l with
            | [] => List.Forall_nil _
            | x :: xs => @List.Forall_cons _ P x xs (rec x) (go xs)
            end) l)
  | JObj fs =>
      HObj fs
        ((fix go (l : list (string * json)) : Forall (fun kv => P (snd kv)) l :=
            match l with
            | [] => List.Forall_nil _
            | kv :: xs =>
                @List.Forall_cons _ (fun kv => P (snd kv)) kv xs (rec (snd kv)) (go xs)
            end) fs)
  end.

(** ** Concrete scenarios *)

(** The state a call leaves, and what it returned if it did not raise. *)
Definition final {A} (o : Outcome A) : State :=
  match o with
  | Returned _ st | Thrown _ st => st
  end.

Definition result {A} (o : Outcome A) : option A :=
  match o with
  | Returned a _ => Some a
  | Thrown _ _ => None
  end.

Definition default_config : AngularWebStoreConfig :=
  {| cfg_prefix := None; cfg_expiredIn := None;
     cfg_keepAlive := None; cfg_actionNotify := None |}.

Definition all_notify : ActionNotifyOptions :=
  {| notify_Set := true; notify_Get := true;
     notify_Remove := true; notify_Clear := true |}.

Definition sliding_config : AngularWebStoreConfig :=
  {| cfg_prefix := Some "app"; cfg_expiredIn := Some "5s";
     cfg_keepAlive := Some true; cfg_actionNotify := Some all_notify |}.

Definition prefixed (p : string) : AngularWebStoreConfig :=
  {| cfg_prefix := Some p; cfg_expiredIn := None;
     cfg_keepAlive := None; cfg_actionNotify := None |}.

(** A browser without storage, one with a working [localStorage], and one
    whose [localStorage] raises on every access. *)
Definition empty_world : World := {| now := 1000; window := ∅ |}.
Definition local_world : World := {| now := 1000; window := {[ LOCAL := Working ∅ ]} |}.
Definition broken_world : World :=
  {| now := 1000; window := {[ LOCAL := Broken "access denied" ]} |}.

Definition built (config : AngularWebStoreConfig) (w : World) : State :=
  final (new (E := concrete) LOCAL config w).

(** Services built by the constructor in these worlds. *)
Definition unbound : StorageService := fst (built default_config empty_world).
Definition plain : StorageService := fst (built default_config local_world).
Definition sliding : StorageService := fst (built sliding_config local_world).

(** [sliding] with an observer of its actions that raises on each of them. *)
Definition noisy : StorageService := subscribe (fun _ => Some "observer failed") sliding.

Definition store_a : StorageService := fst (built (prefixed "a") local_world).
Definition store_a__ : StorageService := fst (built (prefixed "a__") local_world).

(** The world after [plain.set("k", "v", "1m")] at time 1000. *)
Definition minute_world : World :=
  snd (final (set (E := concrete) "k" (Some (JStr "v")) (Some "1m") (plain, local_world))).

(** The world after [sliding.set("k", "v")] at time 1000. *)
Definition sliding_world : World :=
  snd (final (set (E := concrete) "k" (Some (JStr "v")) None (sliding, local_world))).

(** ** What a method may change *)

(** What a method may change: the service keeps its configuration, the clock
    stands, and every medium other than the bound one is as before. *)
Definition confined (st st' : State) : Prop :=
  same_config (fst st) (fst st')
  ∧ now (snd st') = now (snd st)
  ∧ ∀ name, storage (fst st) ≠ Some name →
      window (snd st') !! name = window (snd st) !! name.

(** A computation whose every run, returning or raising, is confined. *)
Definition keeps {A} (m : M A) : Prop := ∀ st, confined st (final (m st)).

(** A second service with the prefix ["a"], with keep-alive and notifications. *)
Definition store_a_alive : StorageService :=
  fst (built {| cfg_prefix := Some "a"; cfg_expiredIn := None;
                cfg_keepAlive := Some true; cfg_actionNotify := Some all_notify |}
         local_world).

(** [localStorage] holding, under the key of [plain] for ["k"], a text that is
    not JSON. *)
Definition garbage_world : World := put_item LOCAL "MIZNE__k" "hello" local_world.

(** An entry that some other writer left under the key of [sliding] for
    ["k"]: an expiry and a value, but no duration. *)
Definition foreign_entry : json :=
  JObj [(EXPIRED_AT, JNum 9000); (STOREAGE_VALUE, JStr "v")].

Definition foreign_world : World :=
  put_item LOCAL "app__k" (stringify foreign_entry) local_world.

(** * Properties *)

(** ** The JSON codec inverts itself *)

Lemma span_digits_render d rest :
  no_digit_head rest = true →
  span_digits (NilEmpty.string_of_uint d +:+ rest) = (NilEmpty.string_of_uint d, rest).
Proof.
  intros Hrest. induction d; simpl; rewrite ?IHd; try reflexivity.
  destruct rest as [|c r]; simpl in *; [reflexivity|].
  destruct (is_digit c); [discriminate|reflexivity].
Qed.

Lemma to_uint_nonnil n : N.to_uint n ≠ Decimal.Nil.
Proof. destruct n; simpl; [discriminate | apply DecimalPos.Unsigned.to_uint_nonnil]. Qed.

Lemma string_of_N_NilEmpty n : string_of_N n = NilEmpty.string_of_uint (N.to_uint n).
Proof.
  unfold string_of_N, NilZero.string_of_uint.
  pose proof (to_uint_nonnil n). destruct (N.to_uint n); congruence.
Qed.

Lemma parse_digits_render n rest :
  no_digit_head rest = true →
  parse_digits (string_of_N n +:+ rest) = Some (n, rest).
Proof.
  intros Hrest. unfold parse_digits.
  rewrite string_of_N_NilEmpty, span_digits_render by done.
  rewrite <- string_of_N_NilEmpty. unfold string_of_N.
  rewrite NilZero.usu by apply to_uint_nonnil.
  by rewrite DecimalN.Unsigned.of_to.
Qed.

Lemma string_of_N_head n : ∃ c r, string_of_N n = String c r ∧ is_digit c = true.
Proof.
  rewrite string_of_N_NilEmpty. pose proof (to_uint_nonnil n) as H.
  destruct (N.to_uint n); try congruence; simpl; eauto.
Qed.

Lemma string_of_Z_nonneg n : 0 ≤ n → string_of_Z n = string_of_N (Z.to_N n).
Proof. destruct n; try lia; reflexivity. Qed.

Lemma string_of_Z_neg n : n < 0 → string_of_Z n = String "-" (string_of_N (Z.to_N (- n))).
Proof. destruct n; try lia; reflexivity. Qed.

Lemma parse_number_render n rest :
  no_digit_head rest = true →
  parse_number (string_of_Z n +:+ rest) = Some (JNum n, rest).
Proof.
  intros Hrest. destruct (Z.lt_ge_cases n 0) as [Hn|Hn].
  - rewrite string_of_Z_neg by done. simpl.
    rewrite parse_digits_render by done.
    rewrite decide_True by done. do 3 f_equal. lia.
  - rewrite string_of_Z_nonneg by done.
    destruct (string_of_N_head (Z.to_N n)) as (c & r & Hs & Hc).
    pose proof (parse_digits_render (Z.to_N n) rest Hrest) as Hp.
    rewrite Hs in *. simpl.
    destruct (Ascii.eqb_spec c "-") as [->|_]; [discriminate|].
    simpl in Hp. rewrite Hp. rewrite Hs. simpl.
    rewrite decide_True by done. do 3 f_equal. lia.
Qed.

Lemma parse_chars_write_char c k : parse_chars (write_char c k) = push c (parse_chars k).
Proof. destruct c as [[] [] [] [] [] [] [] []]; reflexivity. Qed.

Lemma parse_chars_write_chars s k : parse_chars (write_chars s k) = Some (s, k).
Proof.
  induction s as [|c s IH]; simpl; [reflexivity|].
  by rewrite parse_chars_write_char, IH.
Qed.

Lemma parse_value_number f s :
  number_head s = true → parse_value (S f) s = parse_number s.
Proof.
  destruct s as [|c r]; [discriminate|].
  destruct c as [[] [] [] [] [] [] [] []]; (discriminate || reflexivity).
Qed.

Lemma string_of_Z_head n k : number_head (string_of_Z n +:+ k) = true.
Proof.
  destruct (Z.lt_ge_cases n 0) as [Hn|Hn].
  - by rewrite string_of_Z_neg.
  - rewrite string_of_Z_nonneg by done.
    destruct (string_of_N_head (Z.to_N n)) as (c & r & -> & Hc).
    simpl. rewrite Hc. apply orb_true_r.
Qed.

Lemma number_head_opens s : number_head s = true → opens_value s = true.
Proof.
  destruct s as [|c r]; [discriminate|].
  destruct c as [[] [] [] [] [] [] [] []]; (discriminate || reflexivity).
Qed.

Lemma write_opens j k : opens_value (write j k) = true.
Proof.
  destruct j as [|[]|n|s|[|x xs]|[|f fs]]; try reflexivity.
  simpl. apply number_head_opens, string_of_Z_head.
Qed.

Lemma parse_value_array f s :
  opens_value s = true →
  parse_value (S f) (String "[" s) =
    match parse_value f s with
    | Some (x, r1) =>
        match parse_elements f r1 with
        | Some (xs, r2) => Some (JArr (x :: xs), r2)
        | None => None
        end
    | None => None
    end.
Proof.
  destruct s as [|c r]; [discriminate|].
  destruct c as [[] [] [] [] [] [] [] []]; (discriminate || reflexivity).
Qed.

Lemma no_digit_head_tail {A} (w : A → string → string) close l k :
  is_digit close = false →
  no_digit_head (write_tail w close l k) = true.
Proof. intros H. destruct l; simpl; [by rewrite H|reflexivity]. Qed.

Lemma add_member_fresh key v fs :
  key ∉ map fst fs → add_member key v fs = (key, v) :: fs.
Proof. intros H. unfold add_member. by rewrite bool_decide_eq_false_2. Qed.

Lemma parse_elements_tail xs :
  Forall round_trips xs →
  forallb json_wf xs = true →
  ∀ fuel k, (need_tail need xs ≤ fuel)%nat → no_digit_head k = true →
    parse_elements fuel (write_tail write "]" xs k) = Some (xs, k).
Proof.
  induction 1 as [|y ys Hy _ IH]; intros Hwf fuel k Hfuel Hk.
  - destruct fuel; [simpl in Hfuel; lia|reflexivity].
  - destruct fuel as [|f]; [simpl in Hfuel; lia|].
    simpl in Hwf, Hfuel. apply andb_true_iff in Hwf as [Hwy Hwys].
    change (parse_elements (S f) (write_tail write "]" (y :: ys) k))
      with (match parse_value f (write y (write_tail write "]" ys k)) with
            | Some (x, r1) =>
                match parse_elements f r1 with
                | Some (xs, r2) => Some (x :: xs, r2)
                | None => None
                end
            | None => None
            end).
    rewrite (Hy Hwy) by (try apply no_digit_head_tail; done || lia).
    rewrite IH by (done || lia). reflexivity.
Qed.

Lemma parse_member_text f kv k :
  round_trips (snd kv) → json_wf (snd kv) = true →
  (need (snd kv) ≤ f)%nat → no_digit_head k = true →
  parse_member (S f) (member_text kv k) = Some (fst kv, snd kv, k).
Proof.
  intros Hrt Hwf Hf Hk. unfold member_text, write_string.
  change (parse_member (S f) (String dquote (write_chars kv.1 (String ":" (write kv.2 k)))))
    with (match parse_chars (write_chars kv.1 (String ":" (write kv.2 k))) with
          | Some (key, String c' r1) =>
              if Ascii.eqb c' ":" then
                match parse_value f r1 with
                | Some (v, r2) => Some (key, v, r2)
                | None => None
                end
              else None
          | _ => None
          end).
  rewrite parse_chars_write_chars. simpl. by rewrite Hrt.
Qed.

Lemma parse_members_tail fs :
  Forall (fun kv => round_trips (snd kv)) fs →
  NoDup (map fst fs) →
  forallb (fun kv => json_wf (snd kv)) fs = true →
  ∀ fuel k, (need_tail member_need fs ≤ fuel)%nat → no_digit_head k = true →
    parse_members fuel (write_tail member_text "}" fs k) = Some (fs, k).
Proof.
  induction 1 as [|kv fs Hkv _ IH]; intros Hnd Hwf fuel k Hfuel Hk.
  - destruct fuel; [simpl in Hfuel; lia|reflexivity].
  - destruct fuel as [|f]; [simpl in Hfuel; lia|].
    simpl in Hwf, Hfuel. apply andb_true_iff in Hwf as [Hwy Hwys].
    simpl in Hnd. apply NoDup_cons in Hnd as [Hfresh Hnd].
    unfold member_need in Hfuel at 1.
    destruct f as [|f]; [lia|].
    change (parse_members (S (S f)) (write_tail member_text "}" (kv :: fs) k))
      with (match parse_member (S f) (member_text kv (write_tail member_text "}" fs k)) with
            | Some (key, v, r1) =>
                match parse_members (S f) r1 with
                | Some (fs, r2) => Some (add_member key v fs, r2)
                | None => None
                end
            | None => None
            end).
    rewrite parse_member_text by (try apply no_digit_head_tail; done || lia).
    rewrite IH by (done || lia).
    rewrite add_member_fresh by done. by destruct kv.
Qed.

Lemma need_pos j : (1 ≤ need j)%nat.
Proof. destruct j as [| | | |[]|[]]; simpl; lia. Qed.

Lemma parse_write j : round_trips j.
Proof.
  induction j as [|b|n|s|l IH|fs IH] using json_ind'; intros Hwf fuel k Hfuel Hk;
    (destruct fuel as [|f]; [pose proof (need_pos JNull); lia || (exfalso; revert Hfuel; apply Nat.lt_nge, need_pos)|]).
  - reflexivity.
  - by destruct b.
  - simpl write. rewrite parse_value_number by apply string_of_Z_head.
    by apply parse_number_render.
  - simpl. by rewrite parse_chars_write_chars.
  - destruct l as [|x xs]; [reflexivity|].
    apply Forall_cons in IH as [Hx Hxs].
    simpl in Hwf, Hfuel. apply andb_true_iff in Hwf as [Hwx Hwxs].
    simpl write. rewrite parse_value_array by apply write_opens.
    rewrite (Hx Hwx) by (try apply no_digit_head_tail; done || lia).
    by rewrite parse_elements_tail by (done || lia).
  - destruct fs as [|kv fs]; [reflexivity|].
    apply Forall_cons in IH as [Hx Hxs].
    simpl in Hwf, Hfuel.
    apply andb_true_iff in Hwf as [Hnd Hwf]. apply bool_decide_eq_true in Hnd.
    apply andb_true_iff in Hwf as [Hwx Hwxs].
    apply NoDup_cons in Hnd as [Hfresh Hnd].
    destruct f as [|f]; [lia|].
    change (write (JObj (kv :: fs)) k)
      with (String "{" (member_text kv (write_tail member_text "}" fs k))).
    change (parse_value (S (S f)) (String "{" (member_text kv (write_tail member_text "}" fs k))))
      with (match parse_member (S f) (member_text kv (write_tail member_text "}" fs k)) with
            | Some (key, v, r1) =>
                match parse_members (S f) r1 with
                | Some (fs, r2) => Some (JObj (add_member key v fs), r2)
                | None => None
                end
            | None => None
            end).
    rewrite parse_member_text by (try apply no_digit_head_tail; done || lia).
    rewrite parse_members_tail by (done || (unfold member_need; lia)).
    rewrite add_member_fresh by done. by destruct kv.
Qed.

Lemma length_append (a b : string) :
  String.length (a +:+ b) = (String.length a + String.length b)%nat.
Proof. induction a as [|c a IH]; simpl; [done|by rewrite IH]. Qed.

Lemma write_char_length c k : (String.length k < String.length (write_char c k))%nat.
Proof. destruct c as [[] [] [] [] [] [] [] []]; simpl; lia. Qed.

Lemma write_chars_length s k : (String.length k < String.length (write_chars s k))%nat.
Proof.
  induction s as [|c s IH]; simpl; [lia|].
  pose proof (write_char_length c (write_chars s k)). lia.
Qed.

Lemma string_of_Z_length n : (1 ≤ String.length (string_of_Z n))%nat.
Proof.
  pose proof (string_of_Z_head n EmptyString) as H.
  destruct (string_of_Z n); [discriminate|simpl; lia].
Qed.

Lemma write_tail_length {A} (w : A → string → string) (nd : A → nat) close l :
  Forall (fun y => ∀ k, (nd y + String.length k ≤ String.length (w y k))%nat) l →
  ∀ k, (need_tail nd l + String.length k ≤ String.length (write_tail w close l k))%nat.
Proof.
  induction 1 as [|y ys Hy _ IH]; intros k; simpl; [lia|].
  specialize (Hy (write_tail w close ys k)). specialize (IH k). lia.
Qed.

Lemma member_text_length kv :
  fits (snd kv) → ∀ k, (member_need kv + String.length k ≤ String.length (member_text kv k))%nat.
Proof.
  intros H k. unfold member_need, member_text, write_string. simpl.
  pose proof (write_chars_length kv.1 (String ":" (write kv.2 k))).
  specialize (H k). simpl in *. lia.
Qed.

Lemma write_length j : fits j.
Proof.
  induction j as [|b|n|s|l IH|fs IH] using json_ind'; intros k.
  - simpl write. rewrite length_append. simpl. lia.
  - destruct b; simpl write; rewrite length_append; simpl; lia.
  - simpl. rewrite length_append. pose proof (string_of_Z_length n). lia.
  - simpl. pose proof (write_chars_length s k). lia.
  - destruct l as [|x xs]; [simpl write; rewrite length_append; simpl; lia|].
    apply Forall_cons in IH as [Hx Hxs]. simpl.
    specialize (Hx (write_tail write "]" xs k)).
    pose proof (write_tail_length write need "]" xs Hxs k). lia.
  - destruct fs as [|kv fs]; [simpl write; rewrite length_append; simpl; lia|].
    apply Forall_cons in IH as [Hx Hxs].
    change (write (JObj (kv :: fs)) k)
      with (String "{" (member_text kv (write_tail member_text "}" fs k))).
    change (need (JObj (kv :: fs)))
      with (S (Nat.max (member_need kv) (need_tail member_need fs))).
    pose proof (member_text_length kv Hx (write_tail member_text "}" fs k)).
    assert (Forall (fun y => ∀ k, (member_need y + String.length k
                                   ≤ String.length (member_text y k))%nat) fs) as Hfs.
    { eapply Forall_impl; [exact Hxs|]. intros y Hy. by apply member_text_length. }
    pose proof (write_tail_length member_text member_need "}" fs Hfs k).
    cbn [String.length]. lia.
Qed.

Theorem parse_stringify_concrete j : json_wf j = true → parse (stringify j) = Some j.
Proof.
  intros Hwf. unfold parse, stringify.
  rewrite (parse_write j Hwf); [reflexivity| |reflexivity].
  pose proof (write_length j EmptyString). simpl in *. lia.
Qed.

Lemma stringify_nonempty_concrete j : stringify j ≠ EmptyString.
Proof.
  unfold stringify. pose proof (write_opens j EmptyString).
  destruct (write j EmptyString); [discriminate|done].
Qed.

(** ** The concrete collaborators meet their contracts *)

Lemma unit_millis_pos unit f : unit_millis unit = Some f → 0 < f.
Proof.
  unfold unit_millis. repeat case_decide; intros [= <-]; lia.
Qed.

Lemma ms_spec_nonneg s n : ms_spec s = Some n → 0 ≤ n.
Proof.
  unfold ms_spec. destruct (parse_digits s) as [[m unit]|]; [|done].
  destruct (unit_millis unit) as [f|] eqn:Hf; [|done].
  intros [= <-]. apply unit_millis_pos in Hf. lia.
Qed.

Lemma ms_spec_millis n : 0 ≤ n → ms_spec (string_of_Z n +:+ "ms") = Some n.
Proof.
  intros Hn. unfold ms_spec. rewrite string_of_Z_nonneg by done.
  rewrite parse_digits_render by done. simpl. f_equal. lia.
Qed.

Lemma concrete_ms_contract : MsContract concrete.
Proof. split; [apply ms_spec_nonneg|apply ms_spec_millis]. Qed.

Lemma concrete_json_contract : JsonContract concrete.
Proof. split; [apply parse_stringify_concrete|apply stringify_nonempty_concrete]. Qed.

(** ** The service *)

Section Runs.
Context {E : Externals}.

Lemma notifyAction_run action a s w :
  notifyAction action a (s, w) = Returned tt (notified action a s, w).
Proof.
  unfold notifyAction, notified, bind, this. simpl.
  destruct (enabled (actionNotify s) action); [|reflexivity].
  unfold try_catch, actions_next, bind, update_this, this, errors_next. simpl.
  destruct (actions_observer s a); reflexivity.
Qed.

Lemma notified_same_config action a s : same_config s (notified action a s).
Proof.
  unfold notified, same_config.
  destruct (enabled _ _); [destruct (actions_observer s a)|]; done.
Qed.

Lemma computeExpiredMs_run s w e :
  computeExpiredMs e (s, w) =
    match duration_of s e with
    | Some d => Returned d (s, w)
    | None => Thrown (DurationError (default EmptyString e)) (s, w)
    end.
Proof.
  unfold computeExpiredMs, duration_of, call_ms.
  destruct (truthy e); [|reflexivity].
  destruct (ms _); reflexivity.
Qed.

Lemma duration_of_same_config s s' e :
  same_config s s' → duration_of s' e = duration_of s e.
Proof. intros (_ & _ & H & _). unfold duration_of. by rewrite H. Qed.

Lemma internal_key_same_config s s' key :
  same_config s s' → internal_key s' key = internal_key s key.
Proof. intros (_ & H & _). unfold internal_key. by rewrite H. Qed.

Lemma set_run s w key value e :
  set key value e (s, w) =
    let s' := notified Set_TYPE (SetAction key value e) s in
    match duration_of s e with
    | None => Thrown (DurationError (default EmptyString e)) (s', w)
    | Some d =>
        storage_setItem (internal_key s key)
          (JSON_stringify (envelope d (expiry (now w) d) value)) (s', w)
    end.
Proof.
  unfold set, bind at 1. rewrite notifyAction_run.
  unfold bind at 1. rewrite computeExpiredMs_run.
  pose proof (notified_same_config Set_TYPE (SetAction key value e) s) as Hc.
  rewrite (duration_of_same_config _ _ _ Hc). cbn zeta.
  destruct (duration_of s e) as [d|]; [|reflexivity].
  unfold bind, computeKey, this, Date_now, world, ret. simpl.
  by rewrite <- (internal_key_same_config _ _ key Hc).
Qed.

Lemma storage_setItem_working s w name key text :
  storage s = Some name → working name w = true →
  storage_setItem key text (s, w) = Returned tt (s, put_item name key text w).
Proof.
  intros Hs Hw. unfold storage_setItem, bind, this. simpl. rewrite Hs.
  unfold medium_setItem, bind, world, update_world, ret. simpl.
  unfold working, put_item in *. destruct (window w !! name) as [[]|]; done.
Qed.

Lemma storage_setItem_unset s w key text :
  storage s = None →
  storage_setItem key text (s, w) =
    Thrown (TypeError "Cannot read property 'setItem' of undefined") (s, w).
Proof. unfold storage_setItem, bind, this. simpl. by intros ->. Qed.

Lemma storage_getItem_working s w name key :
  storage s = Some name → working name w = true →
  storage_getItem key (s, w) = Returned (item name key w) (s, w).
Proof.
  intros Hs Hw. unfold storage_getItem, bind, this. simpl. rewrite Hs.
  unfold medium_getItem, bind, world, update_world, ret. simpl.
  unfold working, item in *. destruct (window w !! name) as [[]|]; done.
Qed.

Lemma storage_removeItem_working s w name key :
  storage s = Some name → working name w = true →
  storage_removeItem key (s, w) = Returned tt (s, drop_item name key w).
Proof.
  intros Hs Hw. unfold storage_removeItem, bind, this. simpl. rewrite Hs.
  unfold medium_removeItem, bind, world, update_world, ret. simpl.
  unfold working, drop_item in *. destruct (window w !! name) as [[]|]; done.
Qed.

Lemma storage_clear_working s w name :
  storage s = Some name → working name w = true →
  storage_clear (s, w) = Returned tt (s, wipe_items name w).
Proof.
  intros Hs Hw. unfold storage_clear, bind, this. simpl. rewrite Hs.
  unfold medium_clear, bind, world, update_world, ret. simpl.
  unfold working, wipe_items in *. destruct (window w !! name) as [[]|]; done.
Qed.

Lemma set_working s w name key value e d :
  storage s = Some name → working name w = true → duration_of s e = Some d →
  set key value e (s, w) =
    Returned tt (notified Set_TYPE (SetAction key value e) s,
                 put_item name (internal_key s key)
                   (JSON_stringify (envelope d (expiry (now w) d) value)) w).
Proof.
  intros Hs Hw Hd. rewrite set_run, Hd. cbn zeta.
  apply storage_setItem_working; [|done].
  by destruct (notified_same_config Set_TYPE (SetAction key value e) s) as (-> & _).
Qed.

(** *** Reading back what [put_item] and [drop_item] leave *)

Lemma working_put name name' key text w : working name (put_item name' key text w) = working name w.
Proof.
  unfold working, put_item. destruct (window w !! name') as [[]|] eqn:H; try done.
  simpl. destruct (decide (name' = name)) as [->|].
  - by rewrite lookup_insert_eq, H.
  - by rewrite lookup_insert_ne.
Qed.

Lemma item_put name key text w :
  working name w = true → item name key (put_item name key text w) = Some text.
Proof.
  unfold working, item, put_item. destruct (window w !! name) as [[]|]; try done.
  intros _. simpl. by rewrite !lookup_insert_eq.
Qed.

Lemma item_put_ne name key key' text w :
  key ≠ key' → item name key' (put_item name key text w) = item name key' w.
Proof.
  unfold item, put_item. intros Hne. destruct (window w !! name) as [[]|] eqn:H; rewrite ?H; try done.
  simpl. by rewrite lookup_insert_eq, lookup_insert_ne.
Qed.

Lemma item_drop name key w : item name key (drop_item name key w) = None.
Proof.
  unfold item, drop_item. destruct (window w !! name) as [[]|] eqn:H; rewrite ?H; try done.
  simpl. by rewrite lookup_insert_eq, lookup_delete_eq.
Qed.

Lemma now_put name key text w : now (put_item name key text w) = now w.
Proof. unfold put_item. by destruct (window w !! name) as [[]|]. Qed.

(** *** The read path *)

Lemma unExpired_run mills s w :
  unExpired mills (s, w) =
    Returned (bool_decide (mills = -1) || bool_decide (now w ≤ mills)) (s, w).
Proof.
  unfold unExpired, bind, Date_now, world, ret. simpl.
  do 2 f_equal. f_equal. apply bool_decide_ext. lia.
Qed.

(** What [get] does once the Get notification is out, on a working medium. *)
Lemma get_run s w name key :
  storage s = Some name → working name w = true →
  get key (s, w) =
    let s1 := notified Get_TYPE (GetAction key) s in
    match JSON_parse (or_null (item name (internal_key s key) w)) with
    | None => Returned null (s1, w)
    | Some obj =>
        if isValidValue obj then
          match prop obj EXPIRED_AT with
          | Some (JNum expiredAt) =>
              if live_at (now w) obj then
                if negb (bool_decide (expiredAt = -1)) && keepAlive s then
                  match set key (prop obj STOREAGE_VALUE)
                          (Some (String_any (prop obj EXPIRED_MS) +:+ "ms")) (s1, w) with
                  | Returned _ st => Returned (prop obj STOREAGE_VALUE) st
                  | Thrown _ st => Returned null st
                  end
                else Returned (prop obj STOREAGE_VALUE) (s1, w)
              else Returned null (s1, drop_item name (internal_key s key) w)
          | _ => Returned null (s1, w)
          end
        else Returned null (s1, w)
    end.
Proof.
  intros Hs Hw. unfold get, bind at 1. rewrite notifyAction_run.
  destruct (notified_same_config Get_TYPE (GetAction key) s)
    as (Hst & Hpre & _ & Hka & _).
  set (s1 := notified Get_TYPE (GetAction key) s) in *. cbn zeta.
  unfold try_catch, bind at 1, computeKey, bind at 1, this, ret. simpl.
  unfold bind at 1.
  rewrite (storage_getItem_working s1 w name) by congruence.
  change (prefix s1 +:+ "__" +:+ key) with (internal_key s1 key).
  replace (internal_key s1 key) with (internal_key s key)
    by (unfold internal_key; by rewrite Hpre).
  unfold bind at 1, call_JSON_parse.
  destruct (JSON_parse _) as [obj|]; [|reflexivity].
  unfold ret at 1. destruct (isValidValue obj); [|reflexivity].
  unfold live_at.
  destruct (prop obj EXPIRED_AT) as [[| |expiredAt| | |]|]; try reflexivity.
  unfold bind at 1. rewrite unExpired_run.
  destruct (bool_decide (expiredAt = -1) || bool_decide (now w ≤ expiredAt)).
  - unfold bind at 1, this. simpl. rewrite Hka.
    destruct (negb (bool_decide (expiredAt = -1)) && keepAlive s).
    + unfold bind at 1. destruct (set _ _ _ _); reflexivity.
    + reflexivity.
  - unfold bind at 1, this, ret. simpl. unfold bind at 1.
    rewrite (storage_removeItem_working s1 w name) by congruence.
    unfold internal_key. by rewrite Hpre.
Qed.

(** *** Entries written by [set] *)

Lemma prop_envelope_at d expiredAt v :
  prop (envelope d expiredAt v) EXPIRED_AT = Some (JNum expiredAt).
Proof. reflexivity. Qed.

Lemma prop_envelope_ms d expiredAt v :
  prop (envelope d expiredAt v) EXPIRED_MS = Some (JNum d).
Proof. reflexivity. Qed.

Lemma prop_envelope_value d expiredAt v :
  prop (envelope d expiredAt v) STOREAGE_VALUE = v.
Proof. by destruct v. Qed.

Lemma isValidValue_envelope d expiredAt v : isValidValue (envelope d expiredAt v) = true.
Proof. reflexivity. Qed.

Lemma live_at_envelope t d expiredAt v :
  live_at t (envelope d expiredAt v) = bool_decide (expiredAt = -1) || bool_decide (t ≤ expiredAt).
Proof. reflexivity. Qed.

Lemma envelope_wf d expiredAt v : any_wf v = true → json_wf (envelope d expiredAt v) = true.
Proof.
  intros Hv. destruct v as [j|]; simpl in *; [by rewrite Hv|done].
Qed.

Lemma or_null_text text : text ≠ EmptyString → or_null (Some text) = text.
Proof. intros H. unfold or_null. simpl. by rewrite bool_decide_eq_false_2. Qed.

Section Entries.
Context {HJ : JsonContract E}.

Lemma parse_entry d expiredAt v :
  any_wf v = true →
  JSON_parse (or_null (Some (JSON_stringify (envelope d expiredAt v))))
    = Some (envelope d expiredAt v).
Proof.
  intros Hv. rewrite or_null_text by apply stringify_nonempty.
  by apply parse_stringify, envelope_wf.
Qed.

(** [get] on an entry that [set] wrote. *)
Lemma get_entry s w name key d expiredAt v :
  storage s = Some name → working name w = true →
  item name (internal_key s key) w = Some (JSON_stringify (envelope d expiredAt v)) →
  any_wf v = true →
  get key (s, w) =
    let s1 := notified Get_TYPE (GetAction key) s in
    if bool_decide (expiredAt = -1) || bool_decide (now w ≤ expiredAt) then
      if negb (bool_decide (expiredAt = -1)) && keepAlive s then
        match set key v (Some (string_of_Z d +:+ "ms")) (s1, w) with
        | Returned _ st => Returned v st
        | Thrown _ st => Returned null st
        end
      else Returned v (s1, w)
    else Returned null (s1, drop_item name (internal_key s key) w).
Proof.
  intros Hs Hw Hitem Hv. rewrite (get_run s w name) by done.
  rewrite Hitem, parse_entry by done. cbn zeta.
  rewrite isValidValue_envelope, prop_envelope_at, live_at_envelope,
    prop_envelope_value, prop_envelope_ms.
  reflexivity.
Qed.
End Entries.

Lemma get_unset s w key :
  storage s = None →
  get key (s, w) = Returned null (notified Get_TYPE (GetAction key) s, w).
Proof.
  intros Hs. unfold get, bind at 1. rewrite notifyAction_run.
  destruct (notified_same_config Get_TYPE (GetAction key) s) as (Hst & _).
  unfold try_catch, bind, computeKey, this, ret, storage_getItem, bind, this. simpl.
  by rewrite Hst, Hs.
Qed.

Lemma remove_run s w key :
  remove key (s, w) =
    storage_removeItem (internal_key s key) (notified Remove_TYPE (RemoveAction key) s, w).
Proof.
  unfold remove, bind at 1. rewrite notifyAction_run.
  destruct (notified_same_config Remove_TYPE (RemoveAction key) s) as (_ & Hpre & _).
  unfold bind, computeKey, this, ret. simpl. unfold internal_key. by rewrite Hpre.
Qed.

Lemma clear_run s w :
  clear (s, w) = storage_clear (notified Clear_TYPE ClearAction s, w).
Proof. unfold clear, bind at 1. by rewrite notifyAction_run. Qed.

Lemma get_returns key st : ∃ v st', get key st = Returned v st'.
Proof.
  destruct st as [s w]. unfold get, bind at 1. rewrite notifyAction_run.
  unfold try_catch. destruct (bind _ _ _); eauto.
Qed.

(** C1 (amended). On a service whose storage handle is unset, [get] returns
    not-found without raising and without touching the world; [set], [remove]
    and [clear] are not guarded by the handle: each emits its notification
    (when enabled) and then raises, a [TypeError] from dereferencing the unset
    handle (for [set], the parser's failure when the duration is rejected),
    and leaves the world as it was. *)
Theorem unset_handle_operations s w key value expiredIn :
  storage s = None →
  get key (s, w) = Returned null (notified Get_TYPE (GetAction key) s, w)
  ∧ set key value expiredIn (s, w) =
      Thrown (match duration_of s expiredIn with
              | Some _ => TypeError "Cannot read property 'setItem' of undefined"
              | None => DurationError (default EmptyString expiredIn)
              end)
        (notified Set_TYPE (SetAction key value expiredIn) s, w)
  ∧ remove key (s, w) =
      Thrown (TypeError "Cannot read property 'removeItem' of undefined")
        (notified Remove_TYPE (RemoveAction key) s, w)
  ∧ clear (s, w) =
      Thrown (TypeError "Cannot read property 'clear' of undefined")
        (notified Clear_TYPE ClearAction s, w).
Proof.
  intros Hs. split; [by apply get_unset|]. split; [|split].
  - rewrite set_run. cbn zeta. destruct (duration_of s expiredIn); [|reflexivity].
    apply storage_setItem_unset.
    by destruct (notified_same_config Set_TYPE (SetAction key value expiredIn) s) as (-> & _).
  - rewrite remove_run. unfold storage_removeItem, bind, this. simpl.
    by destruct (notified_same_config Remove_TYPE (RemoveAction key) s) as (-> & _); rewrite Hs.
  - rewrite clear_run. unfold storage_clear, bind, this. simpl.
    by destruct (notified_same_config Clear_TYPE ClearAction s) as (-> & _); rewrite Hs.
Qed.

(** C2 (amended). On a service bound to a working medium: a fault of a
    notification observer never leaves [notifyAction] and is recorded as a
    code-500 error; [get], [remove] and [clear] return normally; [set] returns
    normally, having written the entry, when its duration resolves, and
    otherwise the duration parser's failure propagates to the caller, after
    the Set notification and before any write. *)
Theorem faults_after_construction s w name key value expiredIn :
  storage s = Some name → working name w = true →
  (∀ action a, notifyAction action a (s, w) = Returned tt (notified action a s, w))
  ∧ (∀ action a msg, enabled (actionNotify s) action = true →
       actions_observer s a = Some msg →
       errors (notified action a s) = errors s ++ [{| code := 500; message := msg |}])
  ∧ (∃ v st, get key (s, w) = Returned v st)
  ∧ remove key (s, w) =
      Returned tt (notified Remove_TYPE (RemoveAction key) s, drop_item name (internal_key s key) w)
  ∧ clear (s, w) = Returned tt (notified Clear_TYPE ClearAction s, wipe_items name w)
  ∧ match duration_of s expiredIn with
    | Some d =>
        set key value expiredIn (s, w) =
          Returned tt (notified Set_TYPE (SetAction key value expiredIn) s,
                       put_item name (internal_key s key)
                         (JSON_stringify (envelope d (expiry (now w) d) value)) w)
    | None =>
        set key value expiredIn (s, w) =
          Thrown (DurationError (default EmptyString expiredIn))
            (notified Set_TYPE (SetAction key value expiredIn) s, w)
    end.
Proof.
  intros Hs Hw. repeat split.
  - intros. apply notifyAction_run.
  - intros action a msg Hen Hobs. unfold notified. by rewrite Hen, Hobs.
  - apply get_returns.
  - rewrite remove_run. apply storage_removeItem_working; [|done].
    by destruct (notified_same_config Remove_TYPE (RemoveAction key) s) as (-> & _).
  - rewrite clear_run. apply storage_clear_working; [|done].
    by destruct (notified_same_config Clear_TYPE ClearAction s) as (-> & _).
  - destruct (duration_of s expiredIn) as [d|] eqn:Hd.
    + by apply set_working.
    + by rewrite set_run, Hd.
Qed.

Lemma initConfig_run config s w :
  initConfig config (s, w) =
    let s1 := with_prefix (if truthy (cfg_prefix config)
                           then default "MIZNE" (cfg_prefix config) else "MIZNE") s in
    match config_duration config with
    | Some d =>
        Returned tt
          (with_keepAlive (default false (cfg_keepAlive config))
             (with_actionNotify (default no_notify (cfg_actionNotify config))
                (with_expiredMs d s1)), w)
    | None => Thrown (DurationError (default EmptyString (cfg_expiredIn config))) (s1, w)
    end.
Proof.
  unfold initConfig, config_duration, bind, update_this, call_ms, ret. simpl.
  destruct (truthy (cfg_expiredIn config)); [|reflexivity].
  destruct (ms _); reflexivity.
Qed.

Lemma checkSupport_broken storageType msg s w :
  window w !! storageType = Some (Broken msg) →
  checkSupport storageType (s, w) =
    Returned false (with_errors (errors s ++ [{| code := 500; message := msg |}]) s, w).
Proof.
  intros Hw. unfold checkSupport, try_catch, bind, world, this. simpl. rewrite Hw.
  unfold medium_setItem, bind, world. simpl. by rewrite Hw.
Qed.

(** C3 (amended). Constructing a service against a medium that raises on
    every access emits exactly two errors: the caught fault with code 500 and
    its message, from the availability probe, then the not-supported error of
    that storage kind; the handle stays unset and the world is untouched. *)
Theorem broken_medium_two_errors storageType config w msg d :
  storageType = LOCAL ∨ storageType = SESSION →
  window w !! storageType = Some (Broken msg) →
  config_duration config = Some d →
  ∃ s, new storageType config w = Returned tt (s, w)
       ∧ errors s = [{| code := 500; message := msg |}; not_supported storageType]
       ∧ storage s = None.
Proof.
  intros Hty Hw Hd. unfold new, constructor, bind at 1.
  rewrite initConfig_run, Hd. cbn zeta.
  unfold initStorage, not_supported.
  destruct (decide (storageType = LOCAL)) as [HL|HL].
  - unfold bind at 1. rewrite (checkSupport_broken _ msg) by done.
    eexists. split; [reflexivity|]. done.
  - destruct Hty as [?|HS]; [done|]. rewrite decide_True by done.
    unfold bind at 1. rewrite (checkSupport_broken _ msg) by done.
    eexists. split; [reflexivity|]. done.
Qed.

(** *** Key prefixing *)

Lemma append_inv_tail (a b c : string) : a +:+ c = b +:+ c → a = b.
Proof.
  revert b. induction a as [|x a IH]; intros [|y b] H.
  - done.
  - apply (f_equal String.length) in H. rewrite !length_append in H.
    simpl in H. lia.
  - apply (f_equal String.length) in H. rewrite !length_append in H.
    simpl in H. lia.
  - simpl in H. injection H as -> H. f_equal. by apply IH.
Qed.

Lemma internal_key_inj_prefix s1 s2 key :
  internal_key s1 key = internal_key s2 key → prefix s1 = prefix s2.
Proof. unfold internal_key. apply append_inv_tail. Qed.

Lemma truthy_millis x : truthy (Some (x +:+ "ms")) = true.
Proof. by destruct x. Qed.

Lemma get_agrees s w w' name key :
  storage s = Some name → working name w = true → working name w' = true →
  now w' = now w →
  item name (internal_key s key) w' = item name (internal_key s key) w →
  ∃ v st st', get key (s, w) = Returned v st ∧ get key (s, w') = Returned v st'.
Proof.
  intros Hs Hw Hw' Hnow Hitem.
  rewrite (get_run s w name), (get_run s w' name) by done.
  rewrite Hitem, Hnow. cbn zeta.
  destruct (JSON_parse _) as [obj|]; [|by eauto].
  destruct (isValidValue obj); [|by eauto].
  destruct (prop obj EXPIRED_AT) as [[| |expiredAt| | |]|]; try by eauto.
  destruct (live_at (now w) obj); [|by eauto].
  destruct (negb (bool_decide (expiredAt = -1)) && keepAlive s); [|by eauto].
  rewrite !set_run. cbn zeta.
  destruct (duration_of _ _); [|by eauto].
  destruct (notified_same_config Get_TYPE (GetAction key) s) as (Hst & _).
  set (s1 := notified Get_TYPE (GetAction key) s) in *.
  destruct (notified_same_config Set_TYPE
    (SetAction key (prop obj STOREAGE_VALUE)
       (Some (String_any (prop obj EXPIRED_MS) +:+ "ms"))) s1) as (Hst' & _).
  rewrite !(storage_setItem_working _ _ name) by congruence.
  by eauto.
Qed.

(** C4 (amended). For two services with different prefixes bound to the
    same medium and one external key, the two internal keys differ, and a
    [set] of that key through the first service is not observed by the second
    one: its [get] of the key returns the same value before and after. *)
Theorem distinct_prefixes_isolated s1 s2 w name key value expiredIn :
  prefix s1 ≠ prefix s2 →
  storage s1 = Some name → storage s2 = Some name → working name w = true →
  internal_key s1 key ≠ internal_key s2 key
  ∧ ∃ v st st',
      get key (s2, w) = Returned v st
      ∧ get key (s2, snd (final (set key value expiredIn (s1, w)))) = Returned v st'.
Proof.
  intros Hne Hs1 Hs2 Hw.
  assert (internal_key s1 key ≠ internal_key s2 key) as Hkeys.
  { intros H. by apply Hne, (internal_key_inj_prefix _ _ key). }
  split; [done|].
  destruct (duration_of s1 expiredIn) as [d|] eqn:Hd.
  - rewrite (set_working s1 w name key value expiredIn d) by done. simpl.
    apply (get_agrees s2 w _ name); try done.
    + by rewrite working_put.
    + apply now_put.
    + by apply item_put_ne.
  - rewrite set_run, Hd. simpl.
    destruct (get_returns key (s2, w)) as (v & st & Hget). by eauto.
Qed.

(** *** Reading an entry back *)

Section Reads.
Context {HJ : JsonContract E}.

Lemma get_entry_plain s w name key d expiredAt v :
  storage s = Some name → working name w = true →
  item name (internal_key s key) w = Some (JSON_stringify (envelope d expiredAt v)) →
  any_wf v = true →
  expiredAt = -1 ∨ (now w ≤ expiredAt ∧ keepAlive s = false) →
  get key (s, w) = Returned v (notified Get_TYPE (GetAction key) s, w).
Proof.
  intros Hs Hw Hitem Hv Hlive. rewrite (get_entry s w name key d expiredAt v) by done.
  cbn zeta. destruct Hlive as [->|[Hle ->]]; [done|].
  rewrite (bool_decide_eq_true_2 (now w ≤ expiredAt)) by done.
  by rewrite orb_true_r, andb_false_r.
Qed.

Lemma get_entry_expired s w name key d expiredAt v :
  storage s = Some name → working name w = true →
  item name (internal_key s key) w = Some (JSON_stringify (envelope d expiredAt v)) →
  any_wf v = true →
  expiredAt ≠ -1 → expiredAt < now w →
  get key (s, w) =
    Returned null (notified Get_TYPE (GetAction key) s, drop_item name (internal_key s key) w).
Proof.
  intros Hs Hw Hitem Hv Hfin Hlt. rewrite (get_entry s w name key d expiredAt v) by done.
  cbn zeta. rewrite bool_decide_eq_false_2 by done.
  by rewrite bool_decide_eq_false_2 by lia.
Qed.

Context {HM : MsContract E}.

(** The refresh that a keep-alive read performs. *)
Lemma set_millis s w name key v d :
  storage s = Some name → working name w = true → 0 ≤ d →
  set key v (Some (string_of_Z d +:+ "ms")) (s, w) =
    Returned tt (notified Set_TYPE (SetAction key v (Some (string_of_Z d +:+ "ms"))) s,
                 put_item name (internal_key s key)
                   (JSON_stringify (envelope d (now w + d) v)) w).
Proof.
  intros Hs Hw Hd.
  rewrite (set_working s w name key v _ d); try done.
  - unfold expiry. by rewrite bool_decide_eq_false_2 by lia.
  - unfold duration_of. rewrite truthy_millis. simpl. by apply ms_millis.
Qed.

Lemma get_entry_refresh s w name key d expiredAt v :
  storage s = Some name → working name w = true →
  item name (internal_key s key) w = Some (JSON_stringify (envelope d expiredAt v)) →
  any_wf v = true →
  keepAlive s = true → 0 ≤ d → expiredAt ≠ -1 → now w ≤ expiredAt →
  get key (s, w) =
    Returned v
      (notified Set_TYPE (SetAction key v (Some (string_of_Z d +:+ "ms")))
         (notified Get_TYPE (GetAction key) s),
       put_item name (internal_key s key) (JSON_stringify (envelope d (now w + d) v)) w).
Proof.
  intros Hs Hw Hitem Hv Hka Hd Hfin Hle.
  rewrite (get_entry s w name key d expiredAt v) by done. cbn zeta.
  rewrite (bool_decide_eq_false_2 (expiredAt = -1)) by done.
  rewrite (bool_decide_eq_true_2 (now w ≤ expiredAt)) by done.
  rewrite Hka. simpl.
  destruct (notified_same_config Get_TYPE (GetAction key) s) as (Hst & Hpre & _).
  rewrite (set_millis _ w name) by congruence.
  unfold internal_key. by rewrite Hpre.
Qed.

(** A live entry with a finite expiry is returned, whether or not the read
    refreshes it. *)
Lemma get_entry_live s w name key d expiredAt v :
  storage s = Some name → working name w = true →
  item name (internal_key s key) w = Some (JSON_stringify (envelope d expiredAt v)) →
  any_wf v = true →
  0 ≤ d → now w ≤ expiredAt →
  ∃ st, get key (s, w) = Returned v st.
Proof.
  intros Hs Hw Hitem Hv Hd Hle.
  destruct (decide (expiredAt = -1)) as [->|Hfin].
  - eexists. eapply get_entry_plain; eauto.
  - destruct (keepAlive s) eqn:Hka.
    + eexists. eapply get_entry_refresh; eauto.
    + eexists. eapply get_entry_plain; eauto.
Qed.

Lemma same_config_storage s s' : same_config s s' → storage s' = storage s.
Proof. by intros (? & _). Qed.

Lemma same_config_keepAlive s s' : same_config s s' → keepAlive s' = keepAlive s.
Proof. by intros (_ & _ & _ & ? & _). Qed.

Lemma same_config_trans s1 s2 s3 : same_config s1 s2 → same_config s2 s3 → same_config s1 s3.
Proof. unfold same_config. intros (?&?&?&?&?&?) (?&?&?&?&?&?). repeat split; congruence. Qed.

(** C5. On a service bound to a working medium whose default duration is
    [-1] or a magnitude, for every key and every value, [set] without a
    duration followed at once by [get] returns that value. *)
Theorem set_then_get s w name key value :
  storage s = Some name → working name w = true →
  expiredMs s = -1 ∨ 0 ≤ expiredMs s →
  any_wf value = true →
  ∃ s1 w1 st,
    set key value None (s, w) = Returned tt (s1, w1)
    ∧ get key (s1, w1) = Returned value st.
Proof.
  intros Hs Hw Hdef Hv.
  pose proof (notified_same_config Set_TYPE (SetAction key value None) s) as Hc.
  set (s1 := notified Set_TYPE (SetAction key value None) s) in *.
  set (w1 := put_item name (internal_key s key)
               (JSON_stringify (envelope (expiredMs s) (expiry (now w) (expiredMs s)) value)) w).
  assert (storage s1 = Some name) as Hs1 by (by rewrite (same_config_storage s s1)).
  assert (working name w1 = true) as Hw1 by (unfold w1; by rewrite working_put).
  assert (item name (internal_key s1 key) w1
          = Some (JSON_stringify
                    (envelope (expiredMs s) (expiry (now w) (expiredMs s)) value))) as Hitem.
  { rewrite (internal_key_same_config s s1) by done. by apply item_put. }
  assert (now w1 = now w) as Hnow by apply now_put.
  destruct Hdef as [Hd|Hd].
  - exists s1, w1. eexists. split; [by apply set_working|].
    eapply get_entry_plain; eauto. left. unfold expiry. by rewrite Hd.
  - destruct (get_entry_live s1 w1 name key (expiredMs s)
                (expiry (now w) (expiredMs s)) value) as [st Hget]; try done.
    { rewrite Hnow. unfold expiry. case_bool_decide; lia. }
    exists s1, w1, st. split; [by apply set_working|done].
Qed.

(** C6. Expiry boundary: after [set] at time [t] with a finite duration of
    [d] milliseconds, [get] at time [t + d] returns the value, and [get] at
    time [t + d + 1] returns not-found and leaves no entry under the key. *)
Theorem expiry_boundary s w name key value expiredIn d :
  storage s = Some name → working name w = true →
  duration_of s expiredIn = Some d → 0 ≤ d → 0 ≤ now w →
  any_wf value = true →
  ∃ s1 w1,
    set key value expiredIn (s, w) = Returned tt (s1, w1)
    ∧ (∃ st, get key (s1, with_now (now w + d) w1) = Returned value st)
    ∧ (∃ s2 w2, get key (s1, with_now (now w + d + 1) w1) = Returned null (s2, w2)
                ∧ item name (internal_key s key) w2 = None).
Proof.
  intros Hs Hw Hdur Hd Hnow Hv.
  pose proof (notified_same_config Set_TYPE (SetAction key value expiredIn) s) as Hc.
  set (s1 := notified Set_TYPE (SetAction key value expiredIn) s) in *.
  set (w1 := put_item name (internal_key s key)
               (JSON_stringify (envelope d (expiry (now w) d) value)) w).
  assert (expiry (now w) d = now w + d) as Hexp
    by (unfold expiry; by rewrite bool_decide_eq_false_2 by lia).
  assert (storage s1 = Some name) as Hs1 by (by rewrite (same_config_storage s s1)).
  assert (working name w1 = true) as Hw1 by (unfold w1; by rewrite working_put).
  assert (item name (internal_key s1 key) w1
          = Some (JSON_stringify (envelope d (now w + d) value))) as Hitem.
  { rewrite (internal_key_same_config s s1), <- Hexp by done. by apply item_put. }
  exists s1, w1. split; [by apply set_working|]. split.
  - eapply (get_entry_live s1 _ name key d (now w + d)); try done; simpl; lia.
  - eexists _, _. split.
    + eapply (get_entry_expired s1 _ name key d (now w + d)); try done; simpl; lia.
    + rewrite (internal_key_same_config s s1) by done. apply item_drop.
Qed.


End Reads.

(** C8. Without [keepAlive], [get] on a live entry returns its value and
    leaves the world exactly as it was: the entry and every other key. *)
Theorem get_without_keep_alive_frame s w name key obj :
  keepAlive s = false →
  storage s = Some name → working name w = true →
  JSON_parse (or_null (item name (internal_key s key) w)) = Some obj →
  isValidValue obj = true → live_at (now w) obj = true →
  get key (s, w) =
    Returned (prop obj STOREAGE_VALUE) (notified Get_TYPE (GetAction key) s, w).
Proof.
  intros Hka Hs Hw Hparse Hvalid Hlive.
  rewrite (get_run s w name) by done. rewrite Hparse, Hvalid, Hlive, Hka. cbn zeta.
  unfold live_at in Hlive.
  destruct (prop obj EXPIRED_AT) as [[| |expiredAt| | |]|]; try done.
  by rewrite andb_false_r.
Qed.

(** C9. Every write of [set] persists a text that parses to an entry whose
    duration field is the resolved duration and whose value field is the
    value written; the entry's expiry field is [-1] exactly when its duration
    field is [-1], and otherwise it is the write time plus the duration
    field. *)
Theorem envelope_invariant {HJ : JsonContract E} {HM : MsContract E}
    s w name key value expiredIn d :
  storage s = Some name → working name w = true →
  duration_of s expiredIn = Some d →
  0 ≤ now w → expiredMs s = -1 ∨ 0 ≤ expiredMs s →
  any_wf value = true →
  ∃ text obj ttl expiredAt s' w',
    set key value expiredIn (s, w) = Returned tt (s', w')
    ∧ item name (internal_key s key) w' = Some text
    ∧ JSON_parse text = Some obj
    ∧ prop obj EXPIRED_MS = Some (JNum ttl)
    ∧ prop obj EXPIRED_AT = Some (JNum expiredAt)
    ∧ prop obj STOREAGE_VALUE = value
    ∧ ttl = d
    ∧ (expiredAt = -1 ↔ ttl = -1)
    ∧ (expiredAt ≠ -1 → expiredAt = now w + ttl).
Proof.
  intros Hs Hw Hdur Hnow Hdef Hv.
  assert (d = -1 ∨ 0 ≤ d) as Hd.
  { unfold duration_of in Hdur. destruct (truthy expiredIn).
    - right. by eapply ms_nonneg.
    - by injection Hdur as <-. }
  exists (JSON_stringify (envelope d (expiry (now w) d) value)),
    (envelope d (expiry (now w) d) value), d, (expiry (now w) d).
  eexists _, _.
  split; [by apply set_working|]. split; [by apply item_put|].
  split; [by apply parse_stringify, envelope_wf|].
  split; [apply prop_envelope_ms|]. split; [apply prop_envelope_at|].
  split; [apply prop_envelope_value|]. split; [done|].
  unfold expiry. case_bool_decide; split; intros; lia.
Qed.

Lemma actions_notified action a s :
  actions (notified action a s)
    = actions s ++ (if enabled (actionNotify s) action then [a] else []).
Proof.
  unfold notified. destruct (enabled _ _); [|by rewrite app_nil_r].
  by destruct (actions_observer s a).
Qed.

(** C10. With [keepAlive] and Set notifications enabled, [get] on a live
    entry of finite expiry emits, after its own Get notification (when that
    is enabled), a Set action carrying the key, the value and the entry's
    duration rendered as a millisecond string. *)
Theorem keep_alive_emits_set {HJ : JsonContract E} s w name key value d expiredAt :
  keepAlive s = true → notify_Set (actionNotify s) = true →
  storage s = Some name → working name w = true →
  item name (internal_key s key) w = Some (JSON_stringify (envelope d expiredAt value)) →
  any_wf value = true →
  expiredAt ≠ -1 → now w ≤ expiredAt →
  ∃ v s' w',
    get key (s, w) = Returned v (s', w')
    ∧ actions s' = actions s
                   ++ (if notify_Get (actionNotify s) then [GetAction key] else [])
                   ++ [SetAction key value (Some (string_of_Z d +:+ "ms"))].
Proof.
  intros Hka Hset Hs Hw Hitem Hv Hfin Hle.
  rewrite (get_entry s w name key d expiredAt value) by done. cbn zeta.
  rewrite (bool_decide_eq_false_2 (expiredAt = -1)) by done.
  rewrite (bool_decide_eq_true_2 (now w ≤ expiredAt)) by done.
  rewrite Hka. simpl. rewrite set_run. cbn zeta.
  set (s1 := notified Get_TYPE (GetAction key) s).
  set (s2 := notified Set_TYPE (SetAction key value (Some (string_of_Z d +:+ "ms"))) s1).
  assert (actions s2 = actions s
                   ++ (if notify_Get (actionNotify s) then [GetAction key] else [])
                   ++ [SetAction key value (Some (string_of_Z d +:+ "ms"))]) as Hacts.
  { unfold s2, s1. rewrite actions_notified.
    destruct (notified_same_config Get_TYPE (GetAction key) s) as (_ & _ & _ & _ & -> & _).
    rewrite actions_notified. simpl. rewrite Hset.
    by rewrite <- app_assoc. }
  destruct (duration_of s1 _).
  - unfold storage_setItem, bind, this. simpl.
    destruct (storage s2); [|by eauto].
    unfold medium_setItem, bind, world. simpl.
    destruct (window w !! _) as [[]|]; by eauto.
  - by eauto.
Qed.
(** *** Construction *)

Lemma checkSupport_run storageType s w :
  checkSupport storageType (s, w) =
    match window w !! storageType with
    | None => Returned false (s, w)
    | Some (Broken msg) =>
        Returned false (with_errors (errors s ++ [{| code := 500; message := msg |}]) s, w)
    | Some (Working items) =>
        Returned true
          (s, with_window
                (insert storageType
                   (Working (delete (prefix s +:+ "_CHECK_SUPPORT")
                               (<[prefix s +:+ "_CHECK_SUPPORT" := EmptyString]> items)))) w)
    end.
Proof.
  destruct (window w !! storageType) as [[items|msg]|] eqn:Hw.
  - unfold checkSupport, try_catch, bind, world, this. simpl. rewrite Hw.
    unfold medium_setItem, bind, world, update_world. simpl. rewrite Hw.
    unfold medium_removeItem, bind, world, update_world, ret. simpl.
    rewrite lookup_insert_eq. unfold with_window. simpl.
    by rewrite insert_insert_eq.
  - by apply checkSupport_broken.
  - unfold checkSupport, try_catch, bind, world. simpl. by rewrite Hw.
Qed.

Lemma initStorage_expiredMs storageType s w s' w' :
  initStorage storageType (s, w) = Returned tt (s', w') → expiredMs s' = expiredMs s.
Proof.
  unfold initStorage.
  repeat case_decide; unfold bind; rewrite ?checkSupport_run;
    try destruct (window w !! storageType) as [[]|]; intros [= <- _]; done.
Qed.

(** X13. The default duration of a constructed service is [-1] or a magnitude:
    it is never an expiry that has already passed. *)
Lemma new_default_duration {HM : MsContract E} storageType config w s w' :
  new storageType config w = Returned tt (s, w') →
  expiredMs s = -1 ∨ 0 ≤ expiredMs s.
Proof.
  unfold new, constructor, bind at 1. rewrite initConfig_run. cbn zeta.
  destruct (config_duration config) as [d|] eqn:Hd; [|done].
  intros H. apply initStorage_expiredMs in H. rewrite H. simpl.
  unfold config_duration in Hd. destruct (truthy _).
  - right. by eapply ms_nonneg.
  - left. by injection Hd as <-.
Qed.

(** Construction against a working medium binds the handle, reports nothing
    and leaves the medium working. *)
Lemma new_working storageType config w items d :
  storageType = LOCAL ∨ storageType = SESSION →
  window w !! storageType = Some (Working items) →
  config_duration config = Some d →
  ∃ s w', new storageType config w = Returned tt (s, w')
          ∧ storage s = Some storageType ∧ expiredMs s = d ∧ errors s = []
          ∧ working storageType w' = true.
Proof.
  intros Hty Hw Hd. unfold new, constructor, bind at 1.
  rewrite initConfig_run, Hd. cbn zeta. unfold initStorage.
  assert (∀ s0, ∃ s w',
    (ok <- checkSupport storageType ;;
     if ok then update_this (with_storage (Some storageType))
     else errors_next (not_supported storageType)) (s0, w) = Returned tt (s, w')
    ∧ storage s = Some storageType ∧ expiredMs s = expiredMs s0 ∧ errors s = errors s0
    ∧ working storageType w' = true) as Hprobe.
  { intros s0. unfold bind. rewrite checkSupport_run, Hw.
    eexists _, _. split; [reflexivity|]. repeat split.
    unfold working. simpl. by rewrite lookup_insert_eq. }
  unfold not_supported in Hprobe.
  destruct (decide (storageType = LOCAL)) as [HL|HL].
  - edestruct Hprobe as (s & w' & -> & ? & ? & ? & ?). by eexists _, _.
  - destruct Hty as [?|HS]; [done|]. rewrite decide_True by done.
    edestruct Hprobe as (s & w' & -> & ? & ? & ? & ?). by eexists _, _.
Qed.
End Runs.

(** ** Further properties of the service *)

Section More.
Context {E : Externals}.

(** *** What the methods leave alone *)

Lemma same_config_refl s : same_config s s.
Proof. by repeat split. Qed.

Lemma confined_refl st : confined st st.
Proof. split; [apply same_config_refl|done]. Qed.

Lemma confined_trans st1 st2 st3 : confined st1 st2 → confined st2 st3 → confined st1 st3.
Proof.
  intros (Hc & Hn & Hw) (Hc' & Hn' & Hw'). split; [|split].
  - by eapply same_config_trans.
  - congruence.
  - intros name Hne. rewrite Hw', Hw; [done..|].
    by rewrite (same_config_storage _ _ Hc).
Qed.

Lemma keeps_ret {A} (a : A) : keeps (ret a).
Proof. intros st. apply confined_refl. Qed.

Lemma keeps_throw {A} e : keeps (@throw A e).
Proof. intros st. apply confined_refl. Qed.

Lemma keeps_bind {A B} (m : M A) (k : A → M B) :
  keeps m → (∀ a, keeps (k a)) → keeps (bind m k).
Proof.
  intros Hm Hk st. unfold bind. specialize (Hm st).
  destruct (m st) as [a st'|e st']; simpl in *; [|done].
  eapply confined_trans; [exact Hm|apply Hk].
Qed.

Lemma keeps_try_catch {A} (m : M A) (h : Exn → M A) :
  keeps m → (∀ e, keeps (h e)) → keeps (try_catch m h).
Proof.
  intros Hm Hh st. unfold try_catch. specialize (Hm st).
  destruct (m st) as [a st'|e st']; simpl in *; [done|].
  eapply confined_trans; [exact Hm|apply Hh].
Qed.

Lemma keeps_this : keeps this.
Proof. intros st. apply confined_refl. Qed.

Lemma keeps_world : keeps world.
Proof. intros st. apply confined_refl. Qed.

Lemma keeps_errors_next e : keeps (errors_next e).
Proof. intros [s w]. by repeat split. Qed.

Lemma keeps_actions_next a : keeps (actions_next a).
Proof.
  intros [s w]. unfold actions_next, bind, update_this, this. simpl.
  destruct (actions_observer s a); by repeat split.
Qed.

Lemma confined_medium s w name f :
  storage s = Some name →
  confined (s, w) (s, with_window (insert name f) w).
Proof.
  intros Hs. split; [apply same_config_refl|]. split; [done|].
  intros name' Hne. simpl in *. apply lookup_insert_ne. congruence.
Qed.

Lemma keeps_storage_setItem key text : keeps (storage_setItem key text).
Proof.
  intros [s w]. unfold storage_setItem, bind, this. simpl.
  destruct (storage s) as [name|] eqn:Hs; [|apply confined_refl].
  unfold medium_setItem, bind, world, update_world. simpl.
  destruct (window w !! name) as [[]|]; simpl;
    [by apply confined_medium|apply confined_refl..].
Qed.

Lemma keeps_storage_getItem key : keeps (storage_getItem key).
Proof.
  intros [s w]. unfold storage_getItem, bind, this. simpl.
  destruct (storage s) as [name|]; [|apply confined_refl].
  unfold medium_getItem, bind, world. simpl.
  destruct (window w !! name) as [[]|]; apply confined_refl.
Qed.

Lemma keeps_storage_removeItem key : keeps (storage_removeItem key).
Proof.
  intros [s w]. unfold storage_removeItem, bind, this. simpl.
  destruct (storage s) as [name|] eqn:Hs; [|apply confined_refl].
  unfold medium_removeItem, bind, world, update_world. simpl.
  destruct (window w !! name) as [[]|]; simpl;
    [by apply confined_medium|apply confined_refl..].
Qed.

Lemma keeps_storage_clear : keeps storage_clear.
Proof.
  intros [s w]. unfold storage_clear, bind, this. simpl.
  destruct (storage s) as [name|] eqn:Hs; [|apply confined_refl].
  unfold medium_clear, bind, world, update_world. simpl.
  destruct (window w !! name) as [[]|]; simpl;
    [by apply confined_medium|apply confined_refl..].
Qed.

Ltac keeps_step :=
  first
    [ apply keeps_ret | apply keeps_throw | apply keeps_this | apply keeps_world
    | apply keeps_errors_next | apply keeps_actions_next
    | apply keeps_storage_setItem | apply keeps_storage_getItem
    | apply keeps_storage_removeItem | apply keeps_storage_clear
    | apply keeps_bind; [|intros ?]
    | apply keeps_try_catch; [|intros ?]
    | match goal with
      | |- keeps (if ?b then _ else _) => destruct b
      | |- keeps (match ?x with _ => _ end) => destruct x
      end ].

Lemma keeps_notifyAction action a : keeps (notifyAction action a).
Proof. unfold notifyAction. repeat keeps_step. Qed.

Lemma keeps_set key value expiredIn : keeps (set key value expiredIn).
Proof.
  unfold set, computeExpiredMs, call_ms, computeKey, Date_now.
  repeat first [apply keeps_notifyAction | keeps_step].
Qed.

Lemma keeps_get key : keeps (get key).
Proof.
  unfold get, computeKey, call_JSON_parse, unExpired, Date_now.
  repeat first [apply keeps_notifyAction | apply keeps_set | keeps_step].
Qed.

Lemma keeps_remove key : keeps (remove key).
Proof.
  unfold remove, computeKey.
  repeat first [apply keeps_notifyAction | keeps_step].
Qed.

Lemma keeps_clear : keeps clear.
Proof. unfold clear. repeat first [apply keeps_notifyAction | keeps_step]. Qed.

(** X14. No method reassigns the configuration: after [set], [get],
    [remove] or [clear], returning or raising, the handle, prefix, default
    duration, keep-alive flag, mask and observer are what they were. *)
Theorem methods_keep_config s w key value expiredIn :
  same_config s (fst (final (set key value expiredIn (s, w))))
  ∧ same_config s (fst (final (get key (s, w))))
  ∧ same_config s (fst (final (remove key (s, w))))
  ∧ same_config s (fst (final (clear (s, w)))).
Proof.
  repeat split;
    first [apply (keeps_set key value expiredIn (s, w)) | apply (keeps_get key (s, w))
          | apply (keeps_remove key (s, w)) | apply (keeps_clear (s, w))].
Qed.

(** X15. The methods never touch the clock nor any medium other than the
    one the service is bound to (none at all when the handle is unset). *)
Theorem methods_confined_to_medium s w key value expiredIn name :
  storage s ≠ Some name →
  let untouched (st' : State) :=
    now (snd st') = now w ∧ window (snd st') !! name = window w !! name in
  untouched (final (set key value expiredIn (s, w)))
  ∧ untouched (final (get key (s, w)))
  ∧ untouched (final (remove key (s, w)))
  ∧ untouched (final (clear (s, w))).
Proof.
  intros Hne untouched.
  assert (∀ st', confined (s, w) st' → untouched st') as Hun.
  { intros st' (_ & Hnow & Hwin). split; [done|]. by apply Hwin. }
  repeat split; apply Hun;
    first [apply keeps_set | apply keeps_get | apply keeps_remove | apply keeps_clear].
Qed.

(** *** The service object after a write *)

Lemma storage_setItem_store key text s w :
  fst (final (storage_setItem key text (s, w))) = s.
Proof.
  unfold storage_setItem, bind, this. simpl. destruct (storage s) as [name|]; [|done].
  unfold medium_setItem, bind, world, update_world. simpl.
  by destruct (window w !! name) as [[]|].
Qed.

Lemma storage_removeItem_store key s w :
  fst (final (storage_removeItem key (s, w))) = s.
Proof.
  unfold storage_removeItem, bind, this. simpl. destruct (storage s) as [name|]; [|done].
  unfold medium_removeItem, bind, world, update_world. simpl.
  by destruct (window w !! name) as [[]|].
Qed.

Lemma storage_clear_store s w : fst (final (storage_clear (s, w))) = s.
Proof.
  unfold storage_clear, bind, this. simpl. destruct (storage s) as [name|]; [|done].
  unfold medium_clear, bind, world, update_world. simpl.
  by destruct (window w !! name) as [[]|].
Qed.

(** X8. [set], [remove] and [clear] change the service object by their own
    notification and nothing else, whether the backend call succeeds or
    raises: [set] emits one Set action when Set is enabled in the mask and no
    action otherwise. *)
Theorem write_methods_only_notify s w key value expiredIn :
  fst (final (set key value expiredIn (s, w)))
    = notified Set_TYPE (SetAction key value expiredIn) s
  ∧ fst (final (remove key (s, w))) = notified Remove_TYPE (RemoveAction key) s
  ∧ fst (final (clear (s, w))) = notified Clear_TYPE ClearAction s
  ∧ actions (fst (final (set key value expiredIn (s, w))))
    = actions s ++ (if notify_Set (actionNotify s)
                    then [SetAction key value expiredIn] else []).
Proof.
  assert (fst (final (set key value expiredIn (s, w)))
          = notified Set_TYPE (SetAction key value expiredIn) s) as Hset.
  { rewrite set_run. cbn zeta. destruct (duration_of s expiredIn); [|done].
    apply storage_setItem_store. }
  split; [done|]. split; [|split].
  - rewrite remove_run. apply storage_removeItem_store.
  - rewrite clear_run. apply storage_clear_store.
  - rewrite Hset. apply actions_notified.
Qed.

(** *** Entries that cannot be read *)

(** X1. [get] on an entry whose text does not parse, or parses to something
    that is not an object with a numeric expiry, returns not-found, reports no
    error and leaves the entry where it is. *)
Theorem get_unreadable_entry s w name key :
  storage s = Some name → working name w = true →
  match JSON_parse (or_null (item name (internal_key s key) w)) with
  | Some obj => isValidValue obj = false
  | None => True
  end →
  get key (s, w) = Returned null (notified Get_TYPE (GetAction key) s, w).
Proof.
  intros Hs Hw Hbad. rewrite (get_run s w name) by done. cbn zeta.
  destruct (JSON_parse _) as [obj|]; [|done]. by rewrite Hbad.
Qed.

(** X2. [get] of a key that the medium does not hold returns not-found and
    changes nothing in the world. *)
Theorem get_missing_key s w name key :
  storage s = Some name → working name w = true →
  JSON_parse "null" = Some JNull →
  item name (internal_key s key) w = None →
  get key (s, w) = Returned null (notified Get_TYPE (GetAction key) s, w).
Proof.
  intros Hs Hw Hnull Hitem. rewrite (get_run s w name) by done. cbn zeta.
  rewrite Hitem. change (or_null None) with "null". by rewrite Hnull.
Qed.

Lemma item_drop_ne name key key' w :
  key ≠ key' → item name key' (drop_item name key w) = item name key' w.
Proof.
  unfold item, drop_item. intros Hne.
  destruct (window w !! name) as [[]|] eqn:H; rewrite ?H; try done.
  simpl. by rewrite lookup_insert_eq, lookup_delete_ne.
Qed.

Lemma working_drop name name' key w :
  working name (drop_item name' key w) = working name w.
Proof.
  unfold working, drop_item. destruct (window w !! name') as [[]|] eqn:H; try done.
  simpl. destruct (decide (name' = name)) as [->|].
  - by rewrite lookup_insert_eq, H.
  - by rewrite lookup_insert_ne.
Qed.

Lemma item_wipe name key w : working name w = true → item name key (wipe_items name w) = None.
Proof.
  unfold working, item, wipe_items. destruct (window w !! name) as [[]|]; try done.
  intros _. simpl. by rewrite lookup_insert_eq.
Qed.

Lemma working_wipe name w : working name w = true → working name (wipe_items name w) = true.
Proof.
  unfold working, wipe_items. destruct (window w !! name) as [[]|]; try done.
  intros _. simpl. by rewrite lookup_insert_eq.
Qed.

(** X3. After [remove], [get] of the same key returns not-found, and every
    other item of the medium is as before. *)
Theorem remove_then_get s w name key :
  storage s = Some name → working name w = true →
  JSON_parse "null" = Some JNull →
  ∃ s1 w1,
    remove key (s, w) = Returned tt (s1, w1)
    ∧ (∃ st, get key (s1, w1) = Returned null st)
    ∧ ∀ key', key' ≠ internal_key s key → item name key' w1 = item name key' w.
Proof.
  intros Hs Hw Hnull.
  pose proof (notified_same_config Remove_TYPE (RemoveAction key) s) as Hc.
  eexists _, _. split; [|split].
  - rewrite remove_run. apply storage_removeItem_working; [|done].
    by rewrite (same_config_storage _ _ Hc).
  - eexists. apply (get_missing_key _ _ name); try done.
    + by rewrite (same_config_storage _ _ Hc).
    + by rewrite working_drop.
    + rewrite (internal_key_same_config _ _ key Hc). apply item_drop.
  - intros key' Hne. by apply item_drop_ne.
Qed.

(** X4. [clear] empties the whole medium, not only the keys under the
    service's prefix: afterwards every service bound to that medium reads
    not-found for every key. *)
Theorem clear_wipes_medium s1 s2 w name :
  storage s1 = Some name → storage s2 = Some name → working name w = true →
  JSON_parse "null" = Some JNull →
  ∃ s1' w1,
    clear (s1, w) = Returned tt (s1', w1)
    ∧ (∀ key', item name key' w1 = None)
    ∧ ∀ key, get key (s2, w1) = Returned null (notified Get_TYPE (GetAction key) s2, w1).
Proof.
  intros Hs1 Hs2 Hw Hnull.
  pose proof (notified_same_config Clear_TYPE ClearAction s1) as Hc.
  eexists _, _. split; [|split].
  - rewrite clear_run. apply storage_clear_working; [|done].
    by rewrite (same_config_storage _ _ Hc).
  - intros key'. by apply item_wipe.
  - intros key. apply (get_missing_key _ _ name); try done.
    + by apply working_wipe.
    + by apply item_wipe.
Qed.

(** *** A medium that starts raising after the handle is bound *)

(** X19. When the bound medium raises on access, [set] (with a duration
    that resolves), [remove] and [clear] let the fault reach the caller after
    their notification, and [get] returns not-found. *)
Theorem broken_after_binding s w name msg key value expiredIn d :
  storage s = Some name → window w !! name = Some (Broken msg) →
  duration_of s expiredIn = Some d →
  get key (s, w) = Returned null (notified Get_TYPE (GetAction key) s, w)
  ∧ set key value expiredIn (s, w)
    = Thrown (StorageFault msg) (notified Set_TYPE (SetAction key value expiredIn) s, w)
  ∧ remove key (s, w)
    = Thrown (StorageFault msg) (notified Remove_TYPE (RemoveAction key) s, w)
  ∧ clear (s, w) = Thrown (StorageFault msg) (notified Clear_TYPE ClearAction s, w).
Proof.
  intros Hs Hw Hd. split; [|split; [|split]].
  - unfold get, bind at 1. rewrite notifyAction_run.
    destruct (notified_same_config Get_TYPE (GetAction key) s) as (Hst & _).
    unfold try_catch, bind, computeKey, this, ret, storage_getItem, bind, this. simpl.
    rewrite Hst, Hs. unfold medium_getItem, bind, world. simpl. by rewrite Hw.
  - rewrite set_run, Hd. cbn zeta.
    destruct (notified_same_config Set_TYPE (SetAction key value expiredIn) s) as (Hst & _).
    unfold storage_setItem, bind, this. simpl. rewrite Hst, Hs.
    unfold medium_setItem, bind, world. simpl. by rewrite Hw.
  - rewrite remove_run.
    destruct (notified_same_config Remove_TYPE (RemoveAction key) s) as (Hst & _).
    unfold storage_removeItem, bind, this. simpl. rewrite Hst, Hs.
    unfold medium_removeItem, bind, world. simpl. by rewrite Hw.
  - rewrite clear_run.
    destruct (notified_same_config Clear_TYPE ClearAction s) as (Hst & _).
    unfold storage_clear, bind, this. simpl. rewrite Hst, Hs.
    unfold medium_clear, bind, world. simpl. by rewrite Hw.
Qed.
(** *** Construction in every case *)

Lemma initStorage_returns storageType s w :
  ∃ s' w', initStorage storageType (s, w) = Returned tt (s', w').
Proof.
  unfold initStorage.
  repeat case_decide; unfold bind; rewrite ?checkSupport_run;
    try destruct (window w !! storageType) as [[]|]; by eexists _, _.
Qed.

(** X12. Construction raises exactly when the configured default duration
    is rejected by the parser; in every other case, whatever the storage kind
    and the state of [window], it returns. *)
Theorem construction_fails_only_on_duration storageType config w :
  match config_duration config with
  | Some _ => ∃ s w', new storageType config w = Returned tt (s, w')
  | None =>
      ∃ s, new storageType config w
           = Thrown (DurationError (default EmptyString (cfg_expiredIn config))) (s, w)
  end.
Proof.
  destruct (config_duration config) as [d|] eqn:Hd;
    unfold new, constructor, bind at 1; rewrite initConfig_run, Hd; cbn zeta.
  - apply initStorage_returns.
  - by eexists.
Qed.

(** X9. Constructing a service of kind local or session when [window] has
    no such medium emits exactly one error, the not-supported error of that
    kind, leaves the handle unset and does not touch the world. *)
Theorem construction_absent_medium storageType config w d :
  storageType = LOCAL ∨ storageType = SESSION →
  window w !! storageType = None →
  config_duration config = Some d →
  ∃ s, new storageType config w = Returned tt (s, w)
       ∧ errors s = [not_supported storageType]
       ∧ storage s = None.
Proof.
  intros Hty Hw Hd. unfold new, constructor, bind at 1.
  rewrite initConfig_run, Hd. cbn zeta. unfold initStorage, not_supported.
  destruct (decide (storageType = LOCAL)) as [HL|HL].
  - unfold bind at 1. rewrite checkSupport_run, Hw. by eexists.
  - destruct Hty as [?|HS]; [done|]. rewrite decide_True by done.
    unfold bind at 1. rewrite checkSupport_run, Hw. by eexists.
Qed.

(** X10. Constructing a service with any storage kind other than the two
    known ones emits exactly the unknown-type error, leaves the handle unset
    and never probes a medium. *)
Theorem construction_unknown_type storageType config w d :
  storageType ≠ LOCAL → storageType ≠ SESSION →
  config_duration config = Some d →
  ∃ s, new storageType config w = Returned tt (s, w)
       ∧ errors s = [UNKNOWN_STORAGE_TYPE]
       ∧ storage s = None.
Proof.
  intros HL HS Hd. unfold new, constructor, bind at 1.
  rewrite initConfig_run, Hd. cbn zeta. unfold initStorage.
  rewrite !decide_False by done. by eexists.
Qed.

(** X11. Constructing a service against a working medium binds the handle,
    normalises the configuration, emits nothing, and changes the medium only
    by the probe: the sentinel key [prefix_CHECK_SUPPORT] is absent afterwards
    (also if it held an entry before) and every other item is as before. *)
Theorem construction_working_medium storageType config w items d :
  storageType = LOCAL ∨ storageType = SESSION →
  window w !! storageType = Some (Working items) →
  config_duration config = Some d →
  ∃ s w',
    new storageType config w = Returned tt (s, w')
    ∧ storage s = Some storageType
    ∧ prefix s = (if truthy (cfg_prefix config)
                  then default "MIZNE" (cfg_prefix config) else "MIZNE")
    ∧ expiredMs s = d
    ∧ keepAlive s = default false (cfg_keepAlive config)
    ∧ actionNotify s = default no_notify (cfg_actionNotify config)
    ∧ errors s = [] ∧ actions s = []
    ∧ now w' = now w
    ∧ item storageType (prefix s +:+ "_CHECK_SUPPORT") w' = None
    ∧ (∀ key, key ≠ prefix s +:+ "_CHECK_SUPPORT" →
         item storageType key w' = items !! key)
    ∧ ∀ name, name ≠ storageType → window w' !! name = window w !! name.
Proof.
  intros Hty Hw Hd. unfold new, constructor, bind at 1.
  rewrite initConfig_run, Hd. cbn zeta. unfold initStorage.
  set (p := if truthy (cfg_prefix config)
            then default "MIZNE" (cfg_prefix config) else "MIZNE").
  assert (∀ err, ∃ s w',
    (ok <- checkSupport storageType ;;
     if ok then update_this (with_storage (Some storageType)) else errors_next err)
      (with_keepAlive (default false (cfg_keepAlive config))
         (with_actionNotify (default no_notify (cfg_actionNotify config))
            (with_expiredMs d (with_prefix p blank))), w) = Returned tt (s, w')
    ∧ storage s = Some storageType ∧ prefix s = p ∧ expiredMs s = d
    ∧ keepAlive s = default false (cfg_keepAlive config)
    ∧ actionNotify s = default no_notify (cfg_actionNotify config)
    ∧ errors s = [] ∧ actions s = []
    ∧ now w' = now w
    ∧ item storageType (prefix s +:+ "_CHECK_SUPPORT") w' = None
    ∧ (∀ key, key ≠ prefix s +:+ "_CHECK_SUPPORT" →
         item storageType key w' = items !! key)
    ∧ ∀ name, name ≠ storageType → window w' !! name = window w !! name) as Hprobe.
  { intros err. unfold bind. rewrite checkSupport_run, Hw.
    eexists _, _. split; [reflexivity|]. simpl. repeat split.
    - unfold item. simpl. by rewrite lookup_insert_eq, lookup_delete_eq.
    - intros key Hne. unfold item. simpl.
      by rewrite lookup_insert_eq, lookup_delete_ne, lookup_insert_ne.
    - intros name Hne. by apply lookup_insert_ne. }
  destruct (decide (storageType = LOCAL)) as [HL|HL]; [apply Hprobe|].
  destruct Hty as [?|HS]; [done|]. rewrite decide_True by done. apply Hprobe.
Qed.

(** *** Keys within one service *)

Lemma append_inv_head (a b c : string) : a +:+ b = a +:+ c → b = c.
Proof. induction a as [|x a IH]; simpl; [done|]. intros [= H]. by apply IH. Qed.

Lemma internal_key_inj_key s key key' :
  internal_key s key = internal_key s key' → key = key'.
Proof.
  unfold internal_key. intros H. apply append_inv_head in H.
  by apply (append_inv_head "__") in H.
Qed.

(** What [get] returns depends on the configuration of the service, the
    clock and the text under its internal key. *)
Lemma get_value_config s s' w w' name key :
  same_config s s' →
  storage s = Some name → working name w = true → working name w' = true →
  now w' = now w →
  item name (internal_key s key) w' = item name (internal_key s key) w →
  ∃ v st st', get key (s, w) = Returned v st ∧ get key (s', w') = Returned v st'.
Proof.
  intros Hc Hs Hw Hw' Hnow Hitem.
  assert (storage s' = Some name) as Hs' by (by rewrite (same_config_storage _ _ Hc)).
  rewrite (get_run s w name), (get_run s' w' name) by done.
  rewrite (internal_key_same_config _ _ key Hc), (same_config_keepAlive _ _ Hc).
  rewrite Hitem, Hnow. cbn zeta.
  destruct (JSON_parse _) as [obj|]; [|by eauto].
  destruct (isValidValue obj); [|by eauto].
  destruct (prop obj EXPIRED_AT) as [[| |expiredAt| | |]|]; try by eauto.
  destruct (live_at (now w) obj); [|by eauto].
  destruct (negb (bool_decide (expiredAt = -1)) && keepAlive s); [|by eauto].
  rewrite !set_run. cbn zeta.
  pose proof (notified_same_config Get_TYPE (GetAction key) s) as Hg.
  pose proof (notified_same_config Get_TYPE (GetAction key) s') as Hg'.
  rewrite (duration_of_same_config _ _ _ Hg), (duration_of_same_config _ _ _ Hg'),
    (duration_of_same_config _ _ _ Hc).
  destruct (duration_of _ _); [|by eauto].
  rewrite !(storage_setItem_working _ _ name); try done; try by eauto.
  - erewrite same_config_storage; [|apply notified_same_config].
    by rewrite (same_config_storage _ _ Hg').
  - erewrite same_config_storage; [|apply notified_same_config].
    by rewrite (same_config_storage _ _ Hg).
Qed.

(** X6. Within one service two different external keys never share an
    internal key, and [set] of one key does not change what [get] returns for
    another. *)
Theorem set_other_key_frame s w name key key' value expiredIn :
  key ≠ key' →
  storage s = Some name → working name w = true →
  internal_key s key ≠ internal_key s key'
  ∧ ∃ v st st',
      get key' (s, w) = Returned v st
      ∧ get key' (final (set key value expiredIn (s, w))) = Returned v st'.
Proof.
  intros Hne Hs Hw.
  assert (internal_key s key ≠ internal_key s key') as Hkeys.
  { intros H. by apply Hne, (internal_key_inj_key s). }
  split; [done|].
  pose proof (notified_same_config Set_TYPE (SetAction key value expiredIn) s) as Hc.
  destruct (duration_of s expiredIn) as [d|] eqn:Hd.
  - rewrite (set_working s w name key value expiredIn d) by done. simpl.
    apply (get_value_config s _ w _ name); try done.
    + by rewrite working_put.
    + apply now_put.
    + by apply item_put_ne.
  - rewrite set_run, Hd. simpl. by apply (get_value_config s _ w _ name).
Qed.
(** X20. An empty prefix or an empty default duration in the configuration
    is treated as an absent one. *)
Theorem empty_fields_are_absent storageType config w :
  let absent (o : option string) := if truthy o then o else None in
  new storageType config w
    = new storageType
        {| cfg_prefix := absent (cfg_prefix config);
           cfg_expiredIn := absent (cfg_expiredIn config);
           cfg_keepAlive := cfg_keepAlive config;
           cfg_actionNotify := cfg_actionNotify config |} w.
Proof.
  intros absent. unfold new, constructor, bind at 1 2.
  rewrite !initConfig_run. unfold config_duration. simpl.
  unfold absent. destruct (cfg_prefix config) as [p|], (cfg_expiredIn config) as [e|]; simpl;
    repeat case_bool_decide; simpl; rewrite ?bool_decide_eq_false_2 by done; simpl; done.
Qed.

(** *** Writing and reading back *)

Section Written.
Context {HJ : JsonContract E} {HM : MsContract E}.

(** An entry written at the current time is returned. *)
Lemma get_fresh_entry s w name key d v :
  storage s = Some name → working name w = true →
  item name (internal_key s key) w
    = Some (JSON_stringify (envelope d (expiry (now w) d) v)) →
  any_wf v = true → d = -1 ∨ 0 ≤ d →
  ∃ st, get key (s, w) = Returned v st.
Proof.
  intros Hs Hw Hitem Hv [->|Hd].
  - eexists. eapply get_entry_plain; eauto.
  - eapply get_entry_live; eauto. unfold expiry. case_bool_decide; lia.
Qed.

Lemma duration_of_range s expiredIn d :
  expiredMs s = -1 ∨ 0 ≤ expiredMs s →
  duration_of s expiredIn = Some d → d = -1 ∨ 0 ≤ d.
Proof.
  intros Hdef. unfold duration_of. destruct (truthy expiredIn).
  - intros H. right. by eapply ms_nonneg.
  - by intros [= <-].
Qed.


(** X7. Two services with the same prefix on the same medium share their
    entries: what one writes, the other reads. *)
Theorem same_prefix_shares s1 s2 w name key value expiredIn d :
  prefix s2 = prefix s1 →
  storage s1 = Some name → storage s2 = Some name → working name w = true →
  expiredMs s1 = -1 ∨ 0 ≤ expiredMs s1 →
  duration_of s1 expiredIn = Some d →
  any_wf value = true →
  ∃ s1' w1 st,
    set key value expiredIn (s1, w) = Returned tt (s1', w1)
    ∧ get key (s2, w1) = Returned value st.
Proof.
  intros Hpre Hs1 Hs2 Hw Hdef Hd Hv.
  set (w1 := put_item name (internal_key s1 key)
               (JSON_stringify (envelope d (expiry (now w) d) value)) w).
  destruct (get_fresh_entry s2 w1 name key d value) as [st Hget]; try done.
  { unfold w1. by rewrite working_put. }
  { unfold w1, internal_key. rewrite Hpre, now_put. by apply item_put. }
  { by eapply duration_of_range. }
  eexists _, w1, st. split; [by apply set_working|done].
Qed.
End Written.

Section Expiry.
Context {HJ : JsonContract E}.

(** X16. An entry written with the duration [-1] never expires: [get]
    returns it at any time, and never rewrites it, with or without
    keep-alive. *)
Theorem never_expires s w name key value t :
  storage s = Some name → working name w = true →
  expiredMs s = -1 → any_wf value = true →
  ∃ s1 w1,
    set key value None (s, w) = Returned tt (s1, w1)
    ∧ get key (s1, with_now t w1)
      = Returned value (notified Get_TYPE (GetAction key) s1, with_now t w1).
Proof.
  intros Hs Hw Hdef Hv.
  pose proof (notified_same_config Set_TYPE (SetAction key value None) s) as Hc.
  set (s1 := notified Set_TYPE (SetAction key value None) s) in *.
  set (w1 := put_item name (internal_key s key)
               (JSON_stringify (envelope (-1) (-1) value)) w).
  assert (working name w1 = true) as Hw1 by (unfold w1; by rewrite working_put).
  exists s1, w1. split.
  - apply (set_working s w name key value None (-1)); try done.
    unfold duration_of. simpl. by rewrite Hdef.
  - apply (get_entry_plain s1 (with_now t w1) name key (-1) (-1) value); try done.
    + by rewrite (same_config_storage _ _ Hc).
    + rewrite (internal_key_same_config _ _ key Hc). by apply item_put.
    + by left.
Qed.

(** X17. Without keep-alive a read does not postpone the expiry: after a
    read within the duration, a read one millisecond past the original expiry
    returns not-found and removes the entry. *)
Theorem reads_do_not_postpone_expiry s w name key value expiredIn d g :
  keepAlive s = false →
  storage s = Some name → working name w = true →
  duration_of s expiredIn = Some d → 0 ≤ d → 0 ≤ now w →
  any_wf value = true →
  0 ≤ g ≤ d →
  ∃ s1 w1 s2,
    set key value expiredIn (s, w) = Returned tt (s1, w1)
    ∧ get key (s1, with_now (now w + g) w1) = Returned value (s2, with_now (now w + g) w1)
    ∧ get key (s2, with_now (now w + d + 1) w1)
      = Returned null
          (notified Get_TYPE (GetAction key) s2,
           drop_item name (internal_key s key) (with_now (now w + d + 1) w1)).
Proof.
  intros Hka Hs Hw Hdur Hd Hnow Hv Hg.
  pose proof (notified_same_config Set_TYPE (SetAction key value expiredIn) s) as Hc.
  set (s1 := notified Set_TYPE (SetAction key value expiredIn) s) in *.
  pose proof (notified_same_config Get_TYPE (GetAction key) s1) as Hc2.
  set (s2 := notified Get_TYPE (GetAction key) s1) in *.
  pose proof (same_config_trans _ _ _ Hc Hc2) as Hc12.
  set (w1 := put_item name (internal_key s key)
               (JSON_stringify (envelope d (expiry (now w) d) value)) w).
  assert (expiry (now w) d = now w + d) as Hexp
    by (unfold expiry; by rewrite bool_decide_eq_false_2 by lia).
  assert (working name w1 = true) as Hw1 by (unfold w1; by rewrite working_put).
  assert (item name (internal_key s key) w1
          = Some (JSON_stringify (envelope d (now w + d) value))) as Hitem.
  { rewrite <- Hexp. by apply item_put. }
  exists s1, w1, s2. split; [by apply set_working|]. split.
  - apply (get_entry_plain s1 _ name key d (now w + d) value); try done.
    + by rewrite (same_config_storage _ _ Hc).
    + by rewrite (internal_key_same_config _ _ key Hc).
    + right. split; [simpl; lia|]. by rewrite (same_config_keepAlive _ _ Hc).
  - rewrite <- (internal_key_same_config _ _ key Hc12).
    apply (get_entry_expired s2 _ name key d (now w + d) value); try done.
    + by rewrite (same_config_storage _ _ Hc12).
    + by rewrite (internal_key_same_config _ _ key Hc12).
    + lia.
    + simpl. lia.
Qed.
End Expiry.

(** X18. When the keep-alive refresh of a live entry fails because the
    parser rejects the rendered duration, [get] swallows the failure and
    returns not-found although the entry is live; the entry stays, and the Set
    notification has been emitted. *)
Theorem keep_alive_refresh_failure s w name key obj expiredAt :
  keepAlive s = true →
  storage s = Some name → working name w = true →
  JSON_parse (or_null (item name (internal_key s key) w)) = Some obj →
  isValidValue obj = true →
  prop obj EXPIRED_AT = Some (JNum expiredAt) →
  expiredAt ≠ -1 → now w ≤ expiredAt →
  ms (String_any (prop obj EXPIRED_MS) +:+ "ms") = None →
  get key (s, w)
    = Returned null
        (notified Set_TYPE
           (SetAction key (prop obj STOREAGE_VALUE)
              (Some (String_any (prop obj EXPIRED_MS) +:+ "ms")))
           (notified Get_TYPE (GetAction key) s), w).
Proof.
  intros Hka Hs Hw Hparse Hvalid Hat Hfin Hle Hms.
  rewrite (get_run s w name) by done. cbn zeta.
  rewrite Hparse, Hvalid, Hat. unfold live_at. rewrite Hat, Hka.
  rewrite (bool_decide_eq_false_2 (expiredAt = -1)) by done.
  rewrite (bool_decide_eq_true_2 (now w ≤ expiredAt)) by done. simpl.
  rewrite set_run. cbn zeta. unfold duration_of. rewrite truthy_millis. simpl.
  by rewrite Hms.
Qed.
End More.

(** * The properties on concrete runs *)

#[local] Existing Instance concrete.
#[local] Existing Instance concrete_ms_contract.
#[local] Existing Instance concrete_json_contract.

Lemma unset_handle_operations_witness :
  get "k" (unbound, empty_world)
    = Returned null (notified Get_TYPE (GetAction "k") unbound, empty_world)
  ∧ set "k" (Some (JNum 1)) None (unbound, empty_world)
    = Thrown (TypeError "Cannot read property 'setItem' of undefined")
        (notified Set_TYPE (SetAction "k" (Some (JNum 1)) None) unbound, empty_world)
  ∧ remove "k" (unbound, empty_world)
    = Thrown (TypeError "Cannot read property 'removeItem' of undefined")
        (notified Remove_TYPE (RemoveAction "k") unbound, empty_world)
  ∧ clear (unbound, empty_world)
    = Thrown (TypeError "Cannot read property 'clear' of undefined")
        (notified Clear_TYPE ClearAction unbound, empty_world).
Proof.
  apply (unset_handle_operations unbound empty_world "k" (Some (JNum 1)) None).
  reflexivity.
Defined.

(** [set] on a service whose construction found no [localStorage]: the
    unset handle is dereferenced and the call raises. *)
Lemma unset_handle_set_raises :
  new LOCAL default_config empty_world = Returned tt (unbound, empty_world)
  ∧ storage unbound = None
  ∧ set "k" (Some (JNum 1)) None (unbound, empty_world)
    = Thrown (TypeError "Cannot read property 'setItem' of undefined")
        (unbound, empty_world)
  ∧ remove "k" (unbound, empty_world)
    = Thrown (TypeError "Cannot read property 'removeItem' of undefined")
        (unbound, empty_world)
  ∧ clear (unbound, empty_world)
    = Thrown (TypeError "Cannot read property 'clear' of undefined")
        (unbound, empty_world).
Proof. vm_compute. repeat split. Qed.

Lemma faults_after_construction_witness :
  errors (notified Set_TYPE (SetAction "k" (Some (JNum 1)) (Some "1m")) noisy)
    = errors noisy ++ [{| code := 500; message := "observer failed" |}]
  ∧ (∃ v st, get "k" (noisy, local_world) = Returned v st)
  ∧ set "k" (Some (JNum 1)) (Some "1m") (noisy, local_world)
    = Returned tt
        (notified Set_TYPE (SetAction "k" (Some (JNum 1)) (Some "1m")) noisy,
         put_item LOCAL (internal_key noisy "k")
           (JSON_stringify (envelope 60000 (expiry (now local_world) 60000) (Some (JNum 1))))
           local_world).
Proof.
  destruct (faults_after_construction noisy local_world LOCAL "k"
              (Some (JNum 1)) (Some "1m")) as (_ & Herr & Hget & _ & _ & Hset);
    [reflexivity|reflexivity|].
  split; [|split; [exact Hget|exact Hset]].
  apply Herr; reflexivity.
Defined.

(** [set] with a duration that the parser rejects, on a service bound to a
    working [localStorage]: the parser's failure reaches the caller. *)
Lemma set_rejected_duration_raises :
  new LOCAL default_config local_world = Returned tt (plain, local_world)
  ∧ storage plain = Some LOCAL
  ∧ ms "soon" = None
  ∧ set "k" (Some (JNum 1)) (Some "soon") (plain, local_world)
    = Thrown (DurationError "soon") (plain, local_world).
Proof. vm_compute. repeat split. Qed.

Lemma broken_medium_two_errors_witness :
  ∃ s, new LOCAL default_config broken_world = Returned tt (s, broken_world)
       ∧ errors s = [{| code := 500; message := "access denied" |}; not_supported LOCAL]
       ∧ storage s = None.
Proof.
  apply (broken_medium_two_errors LOCAL default_config broken_world "access denied" (-1)).
  - left. reflexivity.
  - reflexivity.
  - reflexivity.
Defined.

(** Construction against a [localStorage] that raises on every access: two
    errors are emitted, not one. *)
Lemma broken_medium_emits_twice :
  errors (fst (final (new LOCAL default_config broken_world)))
    = [{| code := 500; message := "access denied" |}; LOCAL_STORAGE_NOT_SUPPORTED]
  ∧ length (errors (fst (final (new LOCAL default_config broken_world)))) = 2%nat.
Proof. vm_compute. split; reflexivity. Qed.

Lemma distinct_prefixes_isolated_witness :
  internal_key store_a "k" ≠ internal_key store_a__ "k"
  ∧ ∃ v st st',
      get "k" (store_a__, local_world) = Returned v st
      ∧ get "k" (store_a__,
                 snd (final (set "k" (Some (JStr "secret")) None (store_a, local_world))))
        = Returned v st'.
Proof.
  apply (distinct_prefixes_isolated store_a store_a__ local_world LOCAL "k"
           (Some (JStr "secret")) None).
  - vm_compute. discriminate.
  - reflexivity.
  - reflexivity.
  - reflexivity.
Defined.

(** Two services with the different prefixes ["a"] and ["a__"]: the external
    keys ["__b"] and ["b"] map to one internal key, and the second service
    reads what the first one wrote. *)
Lemma prefix_collision :
  prefix store_a = "a" ∧ prefix store_a__ = "a__"
  ∧ internal_key store_a "__b" = internal_key store_a__ "b"
  ∧ result (get "b" (store_a__, local_world)) = Some null
  ∧ result (get "b" (store_a__,
              snd (final (set "__b" (Some (JStr "secret")) None (store_a, local_world)))))
    = Some (Some (JStr "secret")).
Proof. vm_compute. repeat split. Qed.

Lemma set_then_get_witness :
  ∃ s1 w1 st,
    set "k" (Some (JStr "v")) None (sliding, local_world) = Returned tt (s1, w1)
    ∧ get "k" (s1, w1) = Returned (Some (JStr "v")) st.
Proof.
  apply (set_then_get sliding local_world LOCAL "k" (Some (JStr "v"))).
  - reflexivity.
  - reflexivity.
  - right. vm_compute. discriminate.
  - reflexivity.
Defined.

Lemma expiry_boundary_witness :
  ∃ s1 w1,
    set "k" (Some (JStr "v")) (Some "1m") (plain, local_world) = Returned tt (s1, w1)
    ∧ (∃ st, get "k" (s1, with_now (now local_world + 60000) w1)
             = Returned (Some (JStr "v")) st)
    ∧ (∃ s2 w2, get "k" (s1, with_now (now local_world + 60000 + 1) w1)
                = Returned null (s2, w2)
                ∧ item LOCAL (internal_key plain "k") w2 = None).
Proof.
  apply (expiry_boundary plain local_world LOCAL "k" (Some (JStr "v")) (Some "1m") 60000).
  - reflexivity.
  - reflexivity.
  - reflexivity.
  - lia.
  - vm_compute. discriminate.
  - reflexivity.
Defined.


Lemma get_without_keep_alive_frame_witness :
  get "k" (plain, with_now 61000 minute_world)
    = Returned (Some (JStr "v"))
        (notified Get_TYPE (GetAction "k") plain, with_now 61000 minute_world).
Proof.
  apply (get_without_keep_alive_frame plain (with_now 61000 minute_world) LOCAL "k"
           (envelope 60000 61000 (Some (JStr "v")))).
  - reflexivity.
  - reflexivity.
  - reflexivity.
  - vm_compute. reflexivity.
  - reflexivity.
  - reflexivity.
Defined.

Lemma envelope_invariant_witness :
  ∃ text obj ttl expiredAt s' w',
    set "k" (Some (JStr "v")) (Some "1m") (plain, local_world) = Returned tt (s', w')
    ∧ item LOCAL (internal_key plain "k") w' = Some text
    ∧ JSON_parse text = Some obj
    ∧ prop obj EXPIRED_MS = Some (JNum ttl)
    ∧ prop obj EXPIRED_AT = Some (JNum expiredAt)
    ∧ prop obj STOREAGE_VALUE = Some (JStr "v")
    ∧ ttl = 60000
    ∧ (expiredAt = -1 ↔ ttl = -1)
    ∧ (expiredAt ≠ -1 → expiredAt = now local_world + ttl).
Proof.
  apply (envelope_invariant plain local_world LOCAL "k" (Some (JStr "v")) (Some "1m") 60000).
  - reflexivity.
  - reflexivity.
  - reflexivity.
  - vm_compute. discriminate.
  - left. reflexivity.
  - reflexivity.
Defined.

Lemma keep_alive_emits_set_witness :
  ∃ v s' w',
    get "k" (sliding, with_now 4000 sliding_world) = Returned v (s', w')
    ∧ actions s' = actions sliding
                   ++ (if notify_Get (actionNotify sliding) then [GetAction "k"] else [])
                   ++ [SetAction "k" (Some (JStr "v")) (Some (string_of_Z 5000 +:+ "ms"))].
Proof.
  apply (keep_alive_emits_set sliding (with_now 4000 sliding_world) LOCAL "k"
           (Some (JStr "v")) 5000 6000).
  - reflexivity.
  - reflexivity.
  - reflexivity.
  - reflexivity.
  - vm_compute. reflexivity.
  - reflexivity.
  - lia.
  - vm_compute. discriminate.
Defined.

(** ** Further properties on concrete runs *)

Lemma get_unreadable_entry_witness :
  get "k" (plain, garbage_world)
    = Returned null (notified Get_TYPE (GetAction "k") plain, garbage_world).
Proof.
  apply (get_unreadable_entry plain garbage_world LOCAL "k").
  - reflexivity.
  - reflexivity.
  - vm_compute. exact I.
Defined.

Lemma get_missing_key_witness :
  get "k" (plain, local_world)
    = Returned null (notified Get_TYPE (GetAction "k") plain, local_world).
Proof.
  apply (get_missing_key plain local_world LOCAL "k"); reflexivity.
Defined.

Lemma remove_then_get_witness :
  ∃ s1 w1,
    remove "k" (plain, minute_world) = Returned tt (s1, w1)
    ∧ (∃ st, get "k" (s1, w1) = Returned null st)
    ∧ ∀ key', key' ≠ internal_key plain "k" →
        item LOCAL key' w1 = item LOCAL key' minute_world.
Proof.
  apply (remove_then_get plain minute_world LOCAL "k"); reflexivity.
Defined.

Lemma clear_wipes_medium_witness :
  ∃ s1' w1,
    clear (sliding, minute_world) = Returned tt (s1', w1)
    ∧ (∀ key', item LOCAL key' w1 = None)
    ∧ ∀ key, get key (plain, w1)
             = Returned null (notified Get_TYPE (GetAction key) plain, w1).
Proof.
  apply (clear_wipes_medium sliding plain minute_world LOCAL); reflexivity.
Defined.


Lemma set_other_key_frame_witness :
  internal_key plain "other" ≠ internal_key plain "k"
  ∧ ∃ v st st',
      get "k" (plain, minute_world) = Returned v st
      ∧ get "k" (final (set "other" (Some (JNum 7)) None (plain, minute_world)))
        = Returned v st'.
Proof.
  apply (set_other_key_frame plain minute_world LOCAL "other" "k" (Some (JNum 7)) None).
  - discriminate.
  - reflexivity.
  - reflexivity.
Defined.

Lemma same_prefix_shares_witness :
  ∃ s1' w1 st,
    set "k" (Some (JStr "v")) (Some "1m") (store_a, local_world) = Returned tt (s1', w1)
    ∧ get "k" (store_a_alive, w1) = Returned (Some (JStr "v")) st.
Proof.
  apply (same_prefix_shares store_a store_a_alive local_world LOCAL "k"
           (Some (JStr "v")) (Some "1m") 60000).
  - reflexivity.
  - reflexivity.
  - reflexivity.
  - reflexivity.
  - left. reflexivity.
  - reflexivity.
  - reflexivity.
Defined.

Lemma construction_absent_medium_witness :
  ∃ s, new SESSION default_config local_world = Returned tt (s, local_world)
       ∧ errors s = [not_supported SESSION]
       ∧ storage s = None.
Proof.
  apply (construction_absent_medium SESSION default_config local_world (-1)).
  - right. reflexivity.
  - reflexivity.
  - reflexivity.
Defined.

Lemma construction_unknown_type_witness :
  ∃ s, new "cookieStorage" default_config local_world = Returned tt (s, local_world)
       ∧ errors s = [UNKNOWN_STORAGE_TYPE]
       ∧ storage s = None.
Proof.
  apply (construction_unknown_type "cookieStorage" default_config local_world (-1)).
  - discriminate.
  - discriminate.
  - reflexivity.
Defined.

Lemma construction_working_medium_witness :
  ∃ s w',
    new LOCAL sliding_config garbage_world = Returned tt (s, w')
    ∧ storage s = Some LOCAL
    ∧ prefix s = "app"
    ∧ expiredMs s = 5000
    ∧ keepAlive s = true
    ∧ actionNotify s = all_notify
    ∧ errors s = [] ∧ actions s = []
    ∧ now w' = now garbage_world
    ∧ item LOCAL (prefix s +:+ "_CHECK_SUPPORT") w' = None
    ∧ (∀ key, key ≠ prefix s +:+ "_CHECK_SUPPORT" →
         item LOCAL key w' = ({[ "MIZNE__k" := "hello" ]} : gmap string string) !! key)
    ∧ ∀ name, name ≠ LOCAL → window w' !! name = window garbage_world !! name.
Proof.
  apply (construction_working_medium LOCAL sliding_config garbage_world
           {[ "MIZNE__k" := "hello" ]} 5000).
  - left. reflexivity.
  - vm_compute. reflexivity.
  - reflexivity.
Defined.

Lemma new_default_duration_witness : expiredMs sliding = -1 ∨ 0 ≤ expiredMs sliding.
Proof.
  apply (new_default_duration LOCAL sliding_config local_world sliding
           (snd (built sliding_config local_world))).
  vm_compute. reflexivity.
Defined.

Lemma methods_confined_to_medium_witness :
  let untouched (st' : State) :=
    now (snd st') = now minute_world
    ∧ window (snd st') !! SESSION = window minute_world !! SESSION in
  untouched (final (set "k" (Some (JNum 1)) None (plain, minute_world)))
  ∧ untouched (final (get "k" (plain, minute_world)))
  ∧ untouched (final (remove "k" (plain, minute_world)))
  ∧ untouched (final (clear (plain, minute_world))).
Proof.
  apply (methods_confined_to_medium plain minute_world "k" (Some (JNum 1)) None SESSION).
  discriminate.
Defined.

Lemma never_expires_witness :
  ∃ s1 w1,
    set "k" (Some (JStr "v")) None (plain, local_world) = Returned tt (s1, w1)
    ∧ get "k" (s1, with_now 99999999999 w1)
      = Returned (Some (JStr "v"))
          (notified Get_TYPE (GetAction "k") s1, with_now 99999999999 w1).
Proof.
  apply (never_expires plain local_world LOCAL "k" (Some (JStr "v")) 99999999999);
    reflexivity.
Defined.

Lemma reads_do_not_postpone_expiry_witness :
  ∃ s1 w1 s2,
    set "k" (Some (JStr "v")) (Some "1m") (plain, local_world) = Returned tt (s1, w1)
    ∧ get "k" (s1, with_now (now local_world + 59000) w1)
      = Returned (Some (JStr "v")) (s2, with_now (now local_world + 59000) w1)
    ∧ get "k" (s2, with_now (now local_world + 60000 + 1) w1)
      = Returned null
          (notified Get_TYPE (GetAction "k") s2,
           drop_item LOCAL (internal_key plain "k")
             (with_now (now local_world + 60000 + 1) w1)).
Proof.
  apply (reads_do_not_postpone_expiry plain local_world LOCAL "k" (Some (JStr "v"))
           (Some "1m") 60000 59000).
  - reflexivity.
  - reflexivity.
  - reflexivity.
  - reflexivity.
  - lia.
  - vm_compute. discriminate.
  - reflexivity.
  - lia.
Defined.

Lemma keep_alive_refresh_failure_witness :
  get "k" (sliding, foreign_world)
    = Returned null
        (notified Set_TYPE
           (SetAction "k" (prop foreign_entry STOREAGE_VALUE)
              (Some (String_any (prop foreign_entry EXPIRED_MS) +:+ "ms")))
           (notified Get_TYPE (GetAction "k") sliding), foreign_world).
Proof.
  apply (keep_alive_refresh_failure sliding foreign_world LOCAL "k" foreign_entry 9000).
  - reflexivity.
  - reflexivity.
  - reflexivity.
  - vm_compute. reflexivity.
  - reflexivity.
  - reflexivity.
  - discriminate.
  - vm_compute. discriminate.
  - vm_compute. reflexivity.
Defined.

Lemma broken_after_binding_witness :
  get "k" (plain, broken_world)
    = Returned null (notified Get_TYPE (GetAction "k") plain, broken_world)
  ∧ set "k" (Some (JNum 1)) None (plain, broken_world)
    = Thrown (StorageFault "access denied")
        (notified Set_TYPE (SetAction "k" (Some (JNum 1)) None) plain, broken_world)
  ∧ remove "k" (plain, broken_world)
    = Thrown (StorageFault "access denied")
        (notified Remove_TYPE (RemoveAction "k") plain, broken_world)
  ∧ clear (plain, broken_world)
    = Thrown (StorageFault "access denied")
        (notified Clear_TYPE ClearAction plain, broken_world).
Proof.
  apply (broken_after_binding plain broken_world LOCAL "access denied" "k"
           (Some (JNum 1)) None (-1)); reflexivity.
Defined.
